(** * LivingCity traffic simulator: route assignment, stepping loop, snapshots

    A shallow embedding of [src/LivingCity/traffic/traffic_simulator.cpp]
    ([TrafficSimulator::route_finding_], [simulateInGPU], [save_edges],
    [save_agents]) and the properties of it that the specification states.

    The host program is single-threaded; it is modelled in a state monad
    whose state holds the simulator's members, the files written so far and
    a log of the observable effects (diagnostics on [std::cerr], calls to
    the collaborators, stores into route buffers). *)

From Stdlib Require Import ZArith Floats.SpecFloat.
From stdpp Require Import gmap list strings pretty.

Local Open Scope Z_scope.

(** ** IEEE binary32, the C++ [float] *)

Module F32.
Definition prec : Z := 24.
Definition emax : Z := 128.
Definition t : Type := spec_float.

Definition of_Z (z : Z) : t := binary_normalize prec emax z 0 false.
Definition add : t -> t -> t := SFadd prec emax.
Definition mul : t -> t -> t := SFmul prec emax.
Definition div : t -> t -> t := SFdiv prec emax.
Definition ltb : t -> t -> bool := SFltb.

Definition is_nan (x : t) : bool :=
  match x with S754_nan => true | _ => false end.
Definition is_finite (x : t) : bool :=
  match x with S754_zero _ | S754_finite _ _ _ => true | _ => false end.

(** Round toward zero to an integer; [None] for infinities and NaN. *)
Definition trunc (x : t) : option Z :=
  match x with
  | S754_zero _ => Some 0
  | S754_finite s m e => Some (cond_Zopp s (Z.shiftl (Zpos m) e))
  | _ => None
  end.

(** [std::ceil]; [None] for infinities and NaN. *)
Definition ceil (x : t) : option Z :=
  match x with
  | S754_zero _ => Some 0
  | S754_finite s m e => Some (- ((- cond_Zopp s (Zpos m)) ≫ (- e)))
  | _ => None
  end.

Definition INT_MIN : Z := - 2 ^ 31.
Definition INT_MAX : Z := 2 ^ 31 - 1.

(** The implicit conversion [float -> int]: truncation, undefined when
    the truncated value is not representable. *)
Definition to_int (x : t) : option Z :=
  match trunc x with
  | Some z => if bool_decide (INT_MIN <= z <= INT_MAX) then Some z else None
  | None => None
  end.

Definition sub : t -> t -> t := SFsub prec emax.

Definition minus_one : t := of_Z (-1).
End F32.

(** ** Data *)

(** Modelled from the spec: [struct Agent] is declared in a header that is
    not part of the sources at hand.  The fields are the ones the simulator
    reads and writes; [route] is the fixed-capacity buffer (its length is
    the capacity [C]) and [route_size] the number of entries in use. *)
Record Agent := mkAgent {
  init_intersection : Z;
  end_intersection : Z;
  agent_type : Z;
  active : Z;
  route : list Z;
  route_size : nat;
  cum_length : F32.t;
  cum_v : F32.t;
  num_steps : Z;
  slow_down_steps : Z;
  num_lane_change : Z;
  num_steps_in_queue : Z
}.

Definition capacity (a : Agent) : nat := length (route a).

(** The entries of the buffer that are in use. *)
Definition route_entries (a : Agent) : list Z := take (route_size a) (route a).

(** [agent.route[agent.route_size] = mid; agent.route_size++] on the record. *)
Definition push_route (mid : Z) (a : Agent) : Agent :=
  mkAgent (init_intersection a) (end_intersection a) (agent_type a) (active a)
          (<[route_size a := mid]> (route a)) (S (route_size a))
          (cum_length a) (cum_v a) (num_steps a) (slow_down_steps a)
          (num_lane_change a) (num_steps_in_queue a).

(** How the per-period accumulator of travel steps is divided by a vehicle
    count.  The field types come from the absent [struct EdgeData]: with an
    integral accumulator the quotient is C++ integer division, with a
    floating accumulator it is a binary32 division. *)
Class TravelSteps (Acc : Type) := {
  steps_per_vehicle : Acc -> Z -> F32.t
}.

#[export] Instance integral_steps : TravelSteps Z :=
  {| steps_per_vehicle s k := F32.of_Z (Z.quot s k) |}.

#[export] Instance floating_steps : TravelSteps F32.t :=
  {| steps_per_vehicle s k := F32.div s (F32.of_Z k) |}.

(** Modelled from the spec: [struct EdgeData], the per-merged-edge
    aggregate record ("two endpoint vertices, an upstream vehicle count, a
    downstream vehicle count, a cumulative per-period travel-step
    accumulator"). *)
Record EdgeData (Acc : Type) := mkEdgeData {
  vertex : Z * Z;
  upstream_veh_count : Z;
  downstream_veh_count : Z;
  period_cum_travel_steps : Acc
}.
Arguments mkEdgeData {Acc}.
Arguments vertex {Acc}.
Arguments upstream_veh_count {Acc}.
Arguments downstream_veh_count {Acc}.
Arguments period_cum_travel_steps {Acc}.

(** Modelled from the spec: class [Network] ("vertex count, edge list with
    weights, a lookup from an ordered vertex pair to a graph edge
    identifier" that "fails if no such edge").  [endpoints] resolves a
    graph edge id to its ordered vertex pair. *)
Record Network := mkNetwork {
  num_vertices : Z;
  edge_vertices : list (Z * Z);
  edge_weights : list F32.t;
  edge_id : Z -> Z -> option Z;
  endpoints : Z -> option (Z * Z)
}.

(** Modelled from the spec: class [Lanemap].  [eid2mid] is only ever read
    with [.at]; [mid2eid] is only ever enumerated, so it is kept as the
    sequence of its entries in iteration order. *)
Record Lanemap (Acc : Type) := mkLanemap {
  eid2mid : gmap Z Z;
  mid2eid : list (Z * Z);
  edgesData : list (EdgeData Acc);
  lanemap_array : list Z;
  intersections : list Z
}.
Arguments mkLanemap {Acc}.
Arguments eid2mid {Acc}.
Arguments mid2eid {Acc}.
Arguments edgesData {Acc}.
Arguments lanemap_array {Acc}.
Arguments intersections {Acc}.

(** Lookup in the [mid -> eid] map by key. *)
Fixpoint mid2eid_at (m : list (Z * Z)) (mid : Z) : option Z :=
  match m with
  | [] => None
  | (k, e) :: m' => if bool_decide (k = mid) then Some e else mid2eid_at m' mid
  end.

(** ** Output records *)

Record EdgeRow := mkEdgeRow {
  er_eid : Z;
  er_u : Z;
  er_v : Z;
  er_upstream_count : Z;
  er_downstream_count : Z;
  er_average_travel_time : F32.t
}.

Record AgentRow := mkAgentRow {
  ar_aid : nat;
  ar_ori : Z;
  ar_dest : Z;
  ar_type : Z;
  ar_status : Z;
  ar_travel_dist : F32.t;
  ar_travel_time : F32.t;
  ar_ave_speed : F32.t;
  ar_num_slowdown : Z;
  ar_num_lane_change : Z;
  ar_num_in_queue : Z
}.

(** A csv file: the header line is fixed by the kind, the rows follow. *)
Inductive csv :=
  | EdgeCsv (rows : list EdgeRow)
  | AgentCsv (rows : list AgentRow).

(** ** Effects *)

(** What the program does that can be observed from outside.  [RouteStore]
    is a store into a route buffer, at whatever index; [FileOpen] is the
    construction of a [std::ofstream], whether or not the file could be
    opened. *)
Inductive event :=
  | WarnLongRoute (i : nat) (n : nat)
  | WarnNoRoute (i : nat)
  | CallEdgeId (i : nat) (u v : Z)
  | CallEid2MidAt (i : nat) (eid : Z)
  | RouteStore (i : nat) (idx : nat) (mid : Z)
  | CallInitCuda
  | CallCudaSimulate (t : F32.t) (numBlocks : Z)
  | CallCudaGetData
  | CallFinishCuda
  | FileOpen (name : string).

#[export] Instance spec_float_eq_dec : EqDecision spec_float.
Proof. solve_decision. Defined.
#[export] Instance event_eq_dec : EqDecision event.
Proof. solve_decision. Defined.

Inductive exn :=
  | out_of_range      (* thrown by a checked [.at] *)
  | no_such_edge.     (* [Network::edge_id] on a pair that is not an edge *)

Inductive undefined :=
  | StorePastCapacity   (* [agent.route[k] = ...] with [k >= C] *)
  | IndexPastEnd        (* unchecked [operator[]] past the end *)
  | ModuloByZero        (* [x % 0] *)
  | FloatToInt          (* float converted to an [int] that cannot hold it *)
  | DeviceNotReady.     (* a device call outside init .. finish *)

(** How an execution ends.  [Undefined] marks the first operation whose
    behaviour C++ does not define; nothing is claimed about what the
    program does after it.  [OutOfFuel] is the model running out of
    iterations, not an event of the program. *)
Inductive outcome (A : Type) :=
  | Returned (a : A)
  | Threw (e : exn)
  | Undefined (u : undefined)
  | OutOfFuel.
Arguments Returned {A}.
Arguments Threw {A}.
Arguments Undefined {A}.
Arguments OutOfFuel {A}.

(** The device execution surface ([init_cuda], [cuda_simulate],
    [cuda_get_data], [finish_cuda]) is a collaborator; only its interface
    is known. *)
Class Cuda (Acc : Type) := {
  device : Type;
  init_cuda : list Agent -> list (EdgeData Acc) -> list Z -> list Z -> device;
  cuda_simulate : F32.t -> nat -> nat -> F32.t -> Z -> device -> device;
  cuda_get_data : device -> list Agent * list (EdgeData Acc) * list Z
}.

(** The contraction-hierarchy index [MTC::accessibility::Accessibility]:
    built from the network's vertex count, edges and weights, it answers
    the batch query [Routes(sources, targets, 0)]. *)
Class Accessibility := {
  Routes : Z -> list (Z * Z) -> list F32.t -> list Z -> list Z -> list (list Z)
}.

(** Whether a file can be opened for writing is decided outside the
    program (the directory may be missing or read-only). *)
Class FileSystem := {
  openable : string -> bool
}.

(** ** The simulator object and the monad of its member functions *)

Section Simulator.
Context {Acc : Type} `{!TravelSteps Acc} `{!Cuda Acc} `{!Accessibility} {fs : FileSystem}.

(** The members of [TrafficSimulator] ([od_] is kept as its agent
    vector), the device session, the files and the effect log. *)
Record TrafficSimulator := mkSim {
  network_ : Network;
  agents : list Agent;
  lanemap_ : Lanemap Acc;
  save_path_ : string;
  deltaTime_ : F32.t;
  gpu : option device;
  files : gmap string csv;
  log : list event
}.

Definition with_agents (ags : list Agent) (s : TrafficSimulator) :=
  mkSim (network_ s) ags (lanemap_ s) (save_path_ s) (deltaTime_ s)
        (gpu s) (files s) (log s).
Definition with_lanemap (lm : Lanemap Acc) (s : TrafficSimulator) :=
  mkSim (network_ s) (agents s) lm (save_path_ s) (deltaTime_ s)
        (gpu s) (files s) (log s).
Definition with_gpu (d : option device) (s : TrafficSimulator) :=
  mkSim (network_ s) (agents s) (lanemap_ s) (save_path_ s) (deltaTime_ s)
        d (files s) (log s).
Definition with_files (fs : gmap string csv) (s : TrafficSimulator) :=
  mkSim (network_ s) (agents s) (lanemap_ s) (save_path_ s) (deltaTime_ s)
        (gpu s) fs (log s).
Definition with_log (l : list event) (s : TrafficSimulator) :=
  mkSim (network_ s) (agents s) (lanemap_ s) (save_path_ s) (deltaTime_ s)
        (gpu s) (files s) l.

Definition M (A : Type) : Type := TrafficSimulator -> outcome A * TrafficSimulator.

Definition ret {A} (a : A) : M A := fun s => (Returned a, s).
Definition bind {A B} (m : M A) (k : A -> M B) : M B :=
  fun s =>
    match m s with
    | (Returned a, s') => k a s'
    | (Threw e, s') => (Threw e, s')
    | (Undefined u, s') => (Undefined u, s')
    | (OutOfFuel, s') => (OutOfFuel, s')
    end.

Definition throw {A} (e : exn) : M A := fun s => (Threw e, s).
Definition undefined_behaviour {A} (u : undefined) : M A := fun s => (Undefined u, s).
Definition out_of_fuel {A} : M A := fun s => (OutOfFuel, s).
Definition gets {A} (f : TrafficSimulator -> A) : M A := fun s => (Returned (f s), s).
Definition modify (f : TrafficSimulator -> TrafficSimulator) : M unit :=
  fun s => (Returned tt, f s).
Definition emit (e : event) : M unit := modify (fun s => with_log (log s ++ [e]) s).

(** A checked access: [None] raises the exception. *)
Definition checked {A} (e : exn) (o : option A) : M A :=
  match o with Some a => ret a | None => throw e end.
(** An unchecked access: [None] is undefined behaviour. *)
Definition unchecked {A} (u : undefined) (o : option A) : M A :=
  match o with Some a => ret a | None => undefined_behaviour u end.

(** [for (k = j; k < j + n; k++) body(k)] *)
Fixpoint for_range (n : nat) (j : nat) (body : nat -> M unit) : M unit :=
  match n with
  | O => ret tt
  | S n' => bind (body j) (fun _ => for_range n' (S j) body)
  end.

(** [for (i = i0; ...; i++) body(i, l[i - i0])] over the elements of [l]. *)
Fixpoint for_each {A} (body : nat -> A -> M unit) (i : nat) (l : list A) : M unit :=
  match l with
  | [] => ret tt
  | x :: l' => bind (body i x) (fun _ => for_each body (S i) l')
  end.

Notation "x <- m ;; k" := (bind m (fun x => k))
  (at level 100, m at next level, right associativity).
Notation "m ;;; k" := (bind m (fun _ => k))
  (at level 100, right associativity).

(** *** Route assignment *)

(** [agent.route[agent.route_size] = mid; agent.route_size++;] for
    [agent = agents[i]].  The source makes no test: the store is always
    performed, and it is logged as [RouteStore] before anything else.  A
    store at an index below the capacity updates the buffer.  A store at
    the capacity writes outside the array, which C++ leaves undefined:
    the run is marked [Undefined StorePastCapacity] there, and nothing is
    said about what the program does from then on (the compiled program
    may well carry on with the next edge and the next agent). *)
Definition route_append (i : nat) (mid : Z) : M unit :=
  ags <- gets agents ;;
  agent <- unchecked IndexPastEnd (ags !! i) ;;
  emit (RouteStore i (route_size agent) mid) ;;;
  if bool_decide (route_size agent < capacity agent)%nat
  then modify (with_agents (<[i := push_route mid agent]> ags))
  else undefined_behaviour StorePastCapacity.

(** Lines 49-54: one iteration of the inner loop. *)
Definition route_edge (i : nat) (path : list Z) (j : nat) : M unit :=
  vertex_from <- unchecked IndexPastEnd (path !! j) ;;
  vertex_to <- unchecked IndexPastEnd (path !! S j) ;;
  net <- gets network_ ;;
  emit (CallEdgeId i vertex_from vertex_to) ;;;
  eid <- checked no_such_edge (edge_id net vertex_from vertex_to) ;;
  lm <- gets lanemap_ ;;
  emit (CallEid2MidAt i eid) ;;;
  mid <- checked out_of_range (eid2mid lm !! eid) ;;
  route_append i mid.

(** Lines 40-56: the body of the outer loop for agent [i], whose path is
    [node_sequence[i]]. *)
Definition assign_route (i : nat) (path : list Z) : M unit :=
  ags <- gets agents ;;
  _ <- unchecked IndexPastEnd (ags !! i) ;;
  (if bool_decide (100 < length path)%nat
   then emit (WarnLongRoute i (length path)) else ret tt) ;;;
  if bool_decide (length path = 0)%nat
  then emit (WarnNoRoute i)
  else for_range (length path - 1) 0 (route_edge i path).

(** The batch query of lines 23-34. *)
Definition node_sequence_of (s : TrafficSimulator) : list (list Z) :=
  let net := network_ s in
  Routes (num_vertices net) (edge_vertices net) (edge_weights net)
         (init_intersection <$> agents s) (end_intersection <$> agents s).

Definition route_finding_ : M unit :=
  node_sequence <- gets node_sequence_of ;;
  for_each assign_route 0 node_sequence.

(** *** Snapshots *)

(** [v.at(k)] on a vector. *)
Definition at_index {A} (v : list A) (k : Z) : option A :=
  if bool_decide (0 <= k) then v !! Z.to_nat k else None.

(** [save_path_ + stem + std::to_string(current_time) + ".csv"] *)
Definition csv_name (save_path stem : string) (current_time : Z) : string :=
  save_path +:+ stem +:+ pretty current_time +:+ ".csv".

Definition add_edge_row (r : EdgeRow) (f : csv) : csv :=
  match f with EdgeCsv rows => EdgeCsv (rows ++ [r]) | AgentCsv _ => f end.
Definition add_agent_row (r : AgentRow) (f : csv) : csv :=
  match f with AgentCsv rows => AgentCsv (rows ++ [r]) | EdgeCsv _ => f end.

(** Opening a [std::ofstream] creates or truncates the file, and the
    header line is written right away.  When the file cannot be opened the
    stream is left in a failed state, which the code never tests, and
    nothing is written.  The result tells whether the stream is good. *)
Definition open_file (name : string) (empty : csv) : M bool :=
  emit (FileOpen name) ;;;
  if openable name
  then modify (fun s => with_files (<[name := empty]> (files s)) s) ;;; ret true
  else ret false.

(** [file << ...]: nothing happens on a failed stream. *)
Definition write_row (good : bool) (name : string) (add : csv -> csv) : M unit :=
  if good then modify (fun s => with_files (alter add name (files s)) s)
  else ret tt.

(** Lines 153-158. *)
Definition ave_time (deltaTime : F32.t) (edge_data : EdgeData Acc) : F32.t :=
  if bool_decide (0 < downstream_veh_count edge_data)
  then F32.mul (steps_per_vehicle (period_cum_travel_steps edge_data)
                                  (downstream_veh_count edge_data))
               deltaTime
  else F32.minus_one.

Definition edge_row (deltaTime : F32.t) (eid : Z) (edge_data : EdgeData Acc) : EdgeRow :=
  mkEdgeRow eid (fst (vertex edge_data)) (snd (vertex edge_data))
            (upstream_veh_count edge_data) (downstream_veh_count edge_data)
            (ave_time deltaTime edge_data).

Definition save_edge (good : bool) (name : string) (mid_eid : Z * Z) : M unit :=
  let mid := fst mid_eid in
  let eid := snd mid_eid in
  lm <- gets lanemap_ ;;
  edge_data <- checked out_of_range (at_index (edgesData lm) mid) ;;
  dt <- gets deltaTime_ ;;
  write_row good name (add_edge_row (edge_row dt eid edge_data)).

Definition save_edges (current_time : Z) : M unit :=
  name <- gets (fun s => csv_name (save_path_ s) "edge_data_" current_time) ;;
  good <- open_file name (EdgeCsv []) ;;
  lm <- gets lanemap_ ;;
  for_each (fun _ => save_edge good name) 0 (mid2eid lm).

(** Lines 194-198. *)
Definition agent_row (deltaTime : F32.t) (i : nat) (agent : Agent) : AgentRow :=
  mkAgentRow i (init_intersection agent) (end_intersection agent)
             (agent_type agent) (active agent) (cum_length agent)
             (F32.mul (F32.of_Z (num_steps agent)) deltaTime)
             (F32.div (cum_v agent) (F32.of_Z (num_steps agent)))
             (slow_down_steps agent) (num_lane_change agent)
             (num_steps_in_queue agent).

Definition save_agent (good : bool) (name : string) (i : nat) : M unit :=
  ags <- gets agents ;;
  agent <- checked out_of_range (ags !! i) ;;
  dt <- gets deltaTime_ ;;
  write_row good name (add_agent_row (agent_row dt i agent)).

Definition save_agents (current_time : Z) : M unit :=
  name <- gets (fun s => csv_name (save_path_ s) "agents_data_" current_time) ;;
  good <- open_file name (AgentCsv []) ;;
  ags <- gets agents ;;
  for_range (length ags) 0 (save_agent good name).

(** *** The stepping loop *)

Definition UINT_MOD : Z := 2 ^ 32.

(** [a % b] for [unsigned a] and [int b]: [b] is converted to unsigned. *)
Definition umod (a b : Z) : option Z :=
  let b' := b mod UINT_MOD in
  if bool_decide (b' = 0) then None else Some (a mod b').

Definition do_cuda_simulate (startTime : F32.t) (numBlocks : Z) : M unit :=
  emit (CallCudaSimulate startTime numBlocks) ;;;
  d <- gets gpu ;;
  dev <- unchecked DeviceNotReady d ;;
  ags <- gets agents ;;
  lm <- gets lanemap_ ;;
  dt <- gets deltaTime_ ;;
  modify (with_gpu (Some (cuda_simulate startTime (length ags)
                            (length (intersections lm)) dt numBlocks dev))).

Definition do_cuda_get_data : M unit :=
  emit CallCudaGetData ;;;
  d <- gets gpu ;;
  dev <- unchecked DeviceNotReady d ;;
  modify (fun s =>
    let lm := lanemap_ s in
    with_agents (cuda_get_data dev).1.1
      (with_lanemap (mkLanemap (eid2mid lm) (mid2eid lm) (cuda_get_data dev).1.2
                               (lanemap_array lm) (cuda_get_data dev).2) s)).

(** Lines 120-125. *)
Definition checkpoint (startTime : F32.t) : M unit :=
  do_cuda_get_data ;;;
  t <- unchecked FloatToInt (F32.to_int startTime) ;;
  save_edges t ;;;
  t <- unchecked FloatToInt (F32.to_int startTime) ;;
  save_agents t.

(** Lines 114-125: one iteration; returns the new clock and counter. *)
Definition loop_body (num_save_steps numBlocks : Z)
    (startTime : F32.t) (simulations_steps : Z) : M (F32.t * Z) :=
  do_cuda_simulate startTime numBlocks ;;;
  let simulations_steps := (simulations_steps + 1) mod UINT_MOD in
  dt <- gets deltaTime_ ;;
  let startTime := F32.add startTime dt in
  r <- unchecked ModuloByZero (umod simulations_steps num_save_steps) ;;
  (if bool_decide (r = 0) then checkpoint startTime else ret tt) ;;;
  ret (startTime, simulations_steps).

(** Lines 113-126.  The loop need not terminate (the clock is a float),
    so the model runs at most [fuel] iterations. *)
Fixpoint main_loop (fuel : nat) (num_save_steps numBlocks : Z) (endTime : F32.t)
    (startTime : F32.t) (simulations_steps : Z) : M unit :=
  if F32.ltb startTime endTime then
    match fuel with
    | O => out_of_fuel
    | S fuel' =>
        ts <- loop_body num_save_steps numBlocks startTime simulations_steps ;;
        main_loop fuel' num_save_steps numBlocks endTime ts.1 ts.2
    end
  else ret tt.

Definition do_init_cuda : M unit :=
  emit CallInitCuda ;;;
  modify (fun s =>
    let lm := lanemap_ s in
    with_gpu (Some (init_cuda (agents s) (edgesData lm) (lanemap_array lm)
                              (intersections lm))) s).

Definition do_finish_cuda : M unit :=
  emit CallFinishCuda ;;;
  modify (with_gpu None).

(** [int numBlocks = ceil(agents.size() / 384.0f)] *)
Definition numBlocks_of (n : nat) : option Z :=
  match F32.ceil (F32.div (F32.of_Z (Z.of_nat n)) (F32.of_Z 384)) with
  | Some z => if bool_decide (F32.INT_MIN <= z <= F32.INT_MAX) then Some z else None
  | None => None
  end.

(** [int num_save_steps = save_interval / deltaTime_] *)
Definition num_save_steps_of (save_interval : Z) (deltaTime : F32.t) : option Z :=
  F32.to_int (F32.div (F32.of_Z save_interval) deltaTime).

Definition simulateInGPU (fuel : nat) (startTime endTime : F32.t)
    (save_interval : Z) : M unit :=
  do_init_cuda ;;;
  ags <- gets agents ;;
  numBlocks <- unchecked FloatToInt (numBlocks_of (length ags)) ;;
  dt <- gets deltaTime_ ;;
  num_save_steps <- unchecked FloatToInt (num_save_steps_of save_interval dt) ;;
  main_loop fuel num_save_steps numBlocks endTime startTime 0 ;;;
  do_finish_cuda.

(** A snapshot as the loop takes it. *)
Definition snapshot (current_time : Z) : M unit :=
  save_edges current_time ;;; save_agents current_time.

(** *** Relations between states, used to state what an operation leaves
    alone *)

(** Everything but the agents' route buffers and the log. *)
Definition same_setting (s s' : TrafficSimulator) : Prop :=
  network_ s' = network_ s /\ lanemap_ s' = lanemap_ s /\
  save_path_ s' = save_path_ s /\ deltaTime_ s' = deltaTime_ s /\
  gpu s' = gpu s /\ files s' = files s.

(** Everything but the files. *)
Definition only_files_differ (s s' : TrafficSimulator) : Prop :=
  network_ s' = network_ s /\ agents s' = agents s /\ lanemap_ s' = lanemap_ s /\
  save_path_ s' = save_path_ s /\ deltaTime_ s' = deltaTime_ s /\
  gpu s' = gpu s /\ log s' = log s.

Definition writes_only_files {A} (m : M A) : Prop :=
  forall s, only_files_differ s (m s).2.

(** The rows [save_edges] writes for the entries [l] of [mid2eid]: it
    stops at the first entry whose [mid] is not an index of [edgesData]. *)
Fixpoint edge_rows (deltaTime : F32.t) (eds : list (EdgeData Acc)) (l : list (Z * Z))
    : list EdgeRow :=
  match l with
  | [] => []
  | me :: l' =>
      match at_index eds me.1 with
      | Some edge_data => edge_row deltaTime me.2 edge_data :: edge_rows deltaTime eds l'
      | None => []
      end
  end.

(** *** The effects of the stepping loop, as pure functions *)

(** Is a checkpoint due when the 32-bit counter shows [n mod 2^32]? *)
Definition checkpoint_due (K : Z) (n : nat) : bool :=
  bool_decide (umod (Z.of_nat n mod UINT_MOD) K = Some 0).

Definition checkpoint_events (save_path : string) (t : F32.t) : list event :=
  match F32.to_int t with
  | Some ti => [CallCudaGetData; FileOpen (csv_name save_path "edge_data_" ti);
                FileOpen (csv_name save_path "agents_data_" ti)]
  | None => [CallCudaGetData]
  end.

(** The [n]-th iteration, entered when the clock shows [t]. *)
Definition iteration_events (save_path : string) (dt : F32.t) (K numBlocks : Z)
    (t : F32.t) (n : nat) : list event :=
  CallCudaSimulate t numBlocks
    :: (if checkpoint_due K n then checkpoint_events save_path (F32.add t dt) else []).

(** Iterations [n0 + 1 .. n0 + N], the first one entered at clock [t]. *)
Fixpoint loop_events (save_path : string) (dt : F32.t) (K numBlocks : Z)
    (t : F32.t) (n0 N : nat) : list event :=
  match N with
  | O => []
  | S N' => iteration_events save_path dt K numBlocks t (S n0)
            ++ loop_events save_path dt K numBlocks (F32.add t dt) (S n0) N'
  end.

Definition checkpoints (tr : list event) : nat :=
  length (filter (fun e => e = CallCudaGetData) tr).

End Simulator.

Arguments TrafficSimulator Acc {_}.
Arguments M Acc {_} A.

(** ** A concrete setting: the four-vertex line network of the spec *)

Module Line.
(** Edges 0->1, 1->2, 2->3, each of weight 1; edge [k] joins [k] to [k+1]. *)
Definition network : Network :=
  mkNetwork 4 [(0, 1); (1, 2); (2, 3)] [F32.of_Z 1; F32.of_Z 1; F32.of_Z 1]
    (fun u v => if bool_decide (0 <= u < 3 /\ v = u + 1) then Some u else None)
    (fun e => if bool_decide (0 <= e < 3) then Some (e, e + 1) else None).

(** Shortest paths on the line: [s, s+1, .., t] when [s <= t], no path
    otherwise. *)
Definition line_path (s t : Z) : list Z :=
  if bool_decide (s <= t) then (fun k => s + Z.of_nat k) <$> seq 0 (Z.to_nat (t - s + 1))
  else [].

#[global] Instance routing : Accessibility :=
  {| Routes _ _ _ sources targets := zip_with line_path sources targets |}.

Definition edge0 : EdgeData Z := mkEdgeData (0, 0) 0 0 0.

(** Graph edges 0, 1, 2 are the merged edges 10, 11, 12. *)
Definition lanemap : Lanemap Z :=
  mkLanemap (<[0 := 10]> (<[1 := 11]> (<[2 := 12]> ∅)))
            [(10, 0); (11, 1); (12, 2)]
            (replicate 10 edge0 ++
             [mkEdgeData (0, 1) 3 0 7; mkEdgeData (1, 2) 5 2 9; mkEdgeData (2, 3) 1 4 8])
            [] [0; 0; 0; 0].

(** A device that hands back what was uploaded and counts the steps of
    every agent. *)
Definition tick (a : Agent) : Agent :=
  mkAgent (init_intersection a) (end_intersection a) (agent_type a) (active a)
          (route a) (route_size a) (cum_length a) (cum_v a) (num_steps a + 1)
          (slow_down_steps a) (num_lane_change a) (num_steps_in_queue a).

#[global] Instance echo_device : Cuda Z :=
  {| device := list Agent * list (EdgeData Z) * list Z;
     init_cuda ags eds _ ints := (ags, eds, ints);
     cuda_simulate _ _ _ _ _ d := (tick <$> d.1.1, d.1.2, d.2);
     cuda_get_data d := d |}.

(** Every file can be opened. *)
#[global] Instance writable : FileSystem := {| openable _ := true |}.

(** A fresh agent with a route buffer of capacity [C]. *)
Definition fresh (C : nat) (ori dest : Z) : Agent :=
  mkAgent ori dest 0 0 (replicate C 0) 0 (F32.of_Z 0) (F32.of_Z 0) 0 0 0 0.

Definition half : F32.t := F32.div (F32.of_Z 1) (F32.of_Z 2).

Definition sim (ags : list Agent) : TrafficSimulator Z :=
  mkSim network ags lanemap "out/" half None ∅ [].

(** Agent 0 travels 0 -> 3, agent 1 stays at 0, agent 2 asks for 3 -> 0,
    which the one-way line cannot serve. *)
Definition start : TrafficSimulator Z :=
  sim [fresh 8 0 3; fresh 8 0 0; fresh 8 3 0].
Definition routed : TrafficSimulator Z := (route_finding_ start).2.
Definition routed_twice : TrafficSimulator Z := (route_finding_ routed).2.

(** One agent whose buffer holds two entries, for a path of three edges. *)
Definition tight : TrafficSimulator Z := sim [fresh 2 0 3].

Definition three_quarters : F32.t := F32.div (F32.of_Z 3) (F32.of_Z 4).
End Line.

(** ** What route assignment computes, as pure functions *)

(** The edges of a path with their ids: [(u, v, eid, mid)] for every pair
    of consecutive vertices, or [None] when a lookup fails. *)
Fixpoint resolved_path {Acc} (net : Network) (lm : Lanemap Acc) (path : list Z)
    : option (list (Z * Z * Z * Z)) :=
  match path with
  | u :: (v :: _) as rest =>
      match edge_id net u v with
      | Some eid =>
          match eid2mid lm !! eid with
          | Some mid =>
              match resolved_path net lm rest with
              | Some steps => Some ((u, v, eid, mid) :: steps)
              | None => None
              end
          | None => None
          end
      | None => None
      end
  | _ => Some []
  end.

Definition mids_of (steps : list (Z * Z * Z * Z)) : list Z := snd <$> steps.

Fixpoint extend_route (mids : list Z) (a : Agent) : Agent :=
  match mids with
  | [] => a
  | mid :: mids' => extend_route mids' (push_route mid a)
  end.

(** The effects of the inner loop, the first store going to index [k]. *)
Fixpoint edge_events (i k : nat) (steps : list (Z * Z * Z * Z)) : list event :=
  match steps with
  | [] => []
  | (u, v, eid, mid) :: steps' =>
      CallEdgeId i u v :: CallEid2MidAt i eid :: RouteStore i k mid
        :: edge_events i (S k) steps'
  end.

(** The effects of one iteration of the outer loop. *)
Definition agent_events (i : nat) (a : Agent) (path : list Z)
    (steps : list (Z * Z * Z * Z)) : list event :=
  (if bool_decide (100 < length path)%nat then [WarnLongRoute i (length path)] else [])
  ++ (if bool_decide (length path = 0)%nat then [WarnNoRoute i]
      else edge_events i (route_size a) steps).

(** The agent an effect of route assignment belongs to. *)
Definition agent_of_event (e : event) : option nat :=
  match e with
  | WarnLongRoute i _ | WarnNoRoute i | CallEdgeId i _ _ | CallEid2MidAt i _
  | RouteStore i _ _ => Some i
  | _ => None
  end.

Definition events_of (i : nat) (tr : list event) : list event :=
  filter (fun e => agent_of_event e = Some i) tr.

Definition is_resolution (e : event) : bool :=
  match e with CallEdgeId _ _ _ | CallEid2MidAt _ _ => true | _ => false end.

Definition is_store (e : event) : bool :=
  match e with RouteStore _ _ _ => true | _ => false end.

(** The pairs of consecutive vertices of a path. *)
Definition consecutive_pairs (path : list Z) : list (Z * Z) := zip path (tail path).

(** A merged edge id mapped back through [mid -> eid] and resolved to the
    vertex pair of that graph edge. *)
Definition vertex_pair_of_mid {Acc} (net : Network) (lm : Lanemap Acc) (mid : Z)
    : option (Z * Z) :=
  match mid2eid_at (mid2eid lm) mid with
  | Some eid => endpoints net eid
  | None => None
  end.

(** The contracts of the collaborators that the round trip rests on: an
    edge id found for [(u, v)] names an edge from [u] to [v], and
    [mid2eid] inverts [eid2mid]. *)
Definition network_consistent (net : Network) : Prop :=
  forall u v eid, edge_id net u v = Some eid -> endpoints net eid = Some (u, v).

Definition mapping_inverse {Acc} (lm : Lanemap Acc) : Prop :=
  forall eid mid, eid2mid lm !! eid = Some mid -> mid2eid_at (mid2eid lm) mid = Some eid.

(** ** The statements under test that the code does not satisfy, as written *)

(** An overlong path is rejected by an exception and nothing is stored at
    or past index [C] of agent [i]'s buffer. *)
Definition capacity_exceeded_is_rejected {Acc} `{!Cuda Acc}
    (r : outcome unit * TrafficSimulator Acc) (i C : nat) : Prop :=
  (exists e, r.1 = Threw e) /\
  forall idx mid, RouteStore i idx mid ∈ log r.2 -> (idx < C)%nat.

(** [floor(T / I)] for a run from [t0] to [tE] and a save interval [I]. *)
Definition duration_over_interval (t0 tE : F32.t) (save_interval : Z) : option Z :=
  F32.trunc (F32.div (F32.sub tE t0) (F32.of_Z save_interval)).

(** The run fails, and fails before the device is initialised. *)
Definition fails_before_device_init {Acc} `{!Cuda Acc}
    (r : outcome unit * TrafficSimulator Acc) : Prop :=
  r.1 <> Returned tt /\ CallInitCuda ∉ log r.2.

(** ** Further pure descriptions of what the member functions do *)

(** The whole behaviour of the inner loop of route assignment for agent
    [i], whose next store goes to index [k] of a buffer with [room] free
    entries: how it ends, what it logs and which merged edge ids it has
    stored by then. *)
Fixpoint walk {Acc} (net : Network) (lm : Lanemap Acc) (i k room : nat) (path : list Z)
    {struct path} : outcome unit * list event * list Z :=
  match path with
  | u :: (v :: _) as rest =>
      match edge_id net u v with
      | None => (Threw no_such_edge, [CallEdgeId i u v], [])
      | Some eid =>
          match eid2mid lm !! eid with
          | None => (Threw out_of_range, [CallEdgeId i u v; CallEid2MidAt i eid], [])
          | Some mid =>
              match room with
              | O => (Undefined StorePastCapacity,
                      [CallEdgeId i u v; CallEid2MidAt i eid; RouteStore i k mid], [])
              | S room' =>
                  let r := walk net lm i (S k) room' rest in
                  (r.1.1,
                   CallEdgeId i u v :: CallEid2MidAt i eid :: RouteStore i k mid :: r.1.2,
                   mid :: r.2)
              end
          end
      end
  | _ => (Returned tt, [], [])
  end.

(** Agent [i] exists, the edges of [path] all have a graph edge id and a
    merged edge id, and they fit into what is left of the agent's buffer. *)
Definition assignable {Acc} `{!Cuda Acc} (s : TrafficSimulator Acc) (i : nat)
    (path : list Z) : Prop :=
  exists a steps,
    agents s !! i = Some a /\
    resolved_path (network_ s) (lanemap_ s) path = Some steps /\
    (steps <> [] -> (route_size a + length steps <= capacity a)%nat).

(** Every effect of [tr] belongs to an agent with an index in [lo, hi). *)
Definition about_agents (lo hi : nat) (tr : list event) : Prop :=
  Forall (fun e => exists j, agent_of_event e = Some j /\ (lo <= j < hi)%nat) tr.

(** The rows [save_agents] writes for the agents [ags], the first of which
    has index [i]. *)
Fixpoint agent_rows (deltaTime : F32.t) (i : nat) (ags : list Agent) : list AgentRow :=
  match ags with
  | [] => []
  | agent :: ags' => agent_row deltaTime i agent :: agent_rows deltaTime (S i) ags'
  end.

(** A computation that leaves every file but [name] alone. *)
Definition touches_only_file {Acc} `{!Cuda Acc} {A} (name : string) (m : M Acc A) : Prop :=
  forall s name', name' <> name -> files (m s).2 !! name' = files s !! name'.

(** What the stepping loop never changes: the network, both id maps, the
    lane cells, the save path and the time step. *)
Definition config_kept {Acc} `{!Cuda Acc} (s s' : TrafficSimulator Acc) : Prop :=
  network_ s' = network_ s /\
  eid2mid (lanemap_ s') = eid2mid (lanemap_ s) /\
  mid2eid (lanemap_ s') = mid2eid (lanemap_ s) /\
  lanemap_array (lanemap_ s') = lanemap_array (lanemap_ s) /\
  save_path_ s' = save_path_ s /\
  deltaTime_ s' = deltaTime_ s.

Definition keeps_config {Acc} `{!Cuda Acc} {A} (m : M Acc A) : Prop :=
  forall s, config_kept s (m s).2.

(** ** Further settings on the line network *)

(** The lanemap of the line without a merged edge for graph edge 2. *)
Definition gapped_lanemap : Lanemap Z :=
  mkLanemap (<[0 := 10]> (<[1 := 11]> ∅)) [(10, 0); (11, 1)]
            (edgesData Line.lanemap) [] [0; 0; 0; 0].

Definition gapped : TrafficSimulator Z :=
  mkSim Line.network [Line.fresh 8 0 3] gapped_lanemap "out/" Line.half None ∅ [].

(** Two agents on the lanemap with the gap: the first one meets the gap,
    the second one is behind it. *)
Definition gapped_pair : TrafficSimulator Z :=
  mkSim Line.network [Line.fresh 8 0 3; Line.fresh 8 0 1] gapped_lanemap "out/" Line.half
        None ∅ [].

(** A directory in which no file can be opened. *)
Definition read_only : FileSystem := {| openable _ := false |}.

(** An edge record with 9 travel steps for 2 vehicles, with an integral
    and with a floating accumulator. *)
Definition nine_for_two : EdgeData Z := mkEdgeData (0, 1) 2 2 9.
Definition nine_for_two_float : EdgeData F32.t := mkEdgeData (0, 1) 2 2 (F32.of_Z 9).

(** A clock value at which adding half a second changes nothing. *)
Definition two_pow_24 : F32.t := F32.of_Z (2 ^ 24).

(** * Proofs *)

(** ** Route assignment *)

Section RouteProofs.
Context {Acc : Type} `{!TravelSteps Acc} `{!Cuda Acc} `{!Accessibility}.
Implicit Types (s : TrafficSimulator Acc) (a : Agent) (path : list Z).

Lemma sim_eta s :
  mkSim (network_ s) (agents s) (lanemap_ s) (save_path_ s) (deltaTime_ s)
        (gpu s) (files s) (log s) = s.
Proof. by destruct s. Qed.

Lemma resolved_path_cons net (lm : Lanemap Acc) u v rest :
  resolved_path net lm (u :: v :: rest) =
    match edge_id net u v with
    | Some eid =>
        match eid2mid lm !! eid with
        | Some mid =>
            match resolved_path net lm (v :: rest) with
            | Some steps => Some ((u, v, eid, mid) :: steps)
            | None => None
            end
        | None => None
        end
    | None => None
    end.
Proof. reflexivity. Qed.

Lemma resolved_path_length net (lm : Lanemap Acc) path steps :
  resolved_path net lm path = Some steps -> length steps = (length path - 1)%nat.
Proof.
  revert steps. induction path as [|u [|v rest] IH]; intros steps Hr.
  - by inversion Hr.
  - by inversion Hr.
  - rewrite resolved_path_cons in Hr.
    destruct (edge_id net u v); [|done].
    destruct (eid2mid lm !! _); [|done].
    destruct (resolved_path net lm (v :: rest)) as [st|]; [|done].
    inversion Hr; subst. simpl. rewrite (IH st eq_refl). simpl. lia.
Qed.


(** One iteration of the inner loop, in full. *)
Lemma route_edge_eq i path j s a u v :
  path !! j = Some u -> path !! S j = Some v -> agents s !! i = Some a ->
  route_edge i path j s =
    match edge_id (network_ s) u v with
    | None => (Threw no_such_edge, with_log (log s ++ [CallEdgeId i u v]) s)
    | Some eid =>
        match eid2mid (lanemap_ s) !! eid with
        | None => (Threw out_of_range,
                   with_log (log s ++ [CallEdgeId i u v; CallEid2MidAt i eid]) s)
        | Some mid =>
            let l := log s ++ [CallEdgeId i u v; CallEid2MidAt i eid;
                               RouteStore i (route_size a) mid] in
            if bool_decide (route_size a < capacity a)%nat
            then (Returned tt,
                  with_log l (with_agents (<[i := push_route mid a]> (agents s)) s))
            else (Undefined StorePastCapacity, with_log l s)
        end
    end.
Proof.
  intros Hu Hv Ha. destruct s as [net ags lm sp dt g fs lg]. simpl in *.
  unfold route_edge, route_append, bind, gets, unchecked, checked, emit, modify,
    ret, throw, undefined_behaviour, with_log, with_agents.
  rewrite Hu, Hv. simpl.
  destruct (edge_id net u v) as [eid|]; simpl; [|done].
  destruct (eid2mid lm !! eid) as [mid|]; simpl; [|by rewrite <- app_assoc].
  rewrite Ha. simpl. rewrite <- !app_assoc. simpl.
  by case_bool_decide.
Qed.

Lemma drop_two path j u v r :
  drop j path = u :: v :: r ->
  path !! j = Some u /\ path !! S j = Some v /\ drop (S j) path = v :: r.
Proof.
  intros E. split; [|split].
  - rewrite <- (Nat.add_0_r j), <- lookup_drop, E. done.
  - replace (S j) with (j + 1)%nat by lia. rewrite <- lookup_drop, E. done.
  - replace (S j) with (j + 1)%nat by lia. rewrite <- drop_drop, E. done.
Qed.

Lemma with_log_agents_eta s :
  with_log (log s) (with_agents (agents s) s) = s.
Proof. by destruct s. Qed.

(** The inner loop from index [j] on. *)
Lemma for_range_route_edge i path n :
  forall j s a s',
    agents s !! i = Some a ->
    (S j + n = length path)%nat ->
    for_range n j (route_edge i path) s = (Returned tt, s') <->
    exists steps,
      resolved_path (network_ s) (lanemap_ s) (drop j path) = Some steps /\
      (steps <> [] -> (route_size a + length steps <= capacity a)%nat) /\
      s' = with_log (log s ++ edge_events i (route_size a) steps)
             (with_agents (<[i := extend_route (mids_of steps) a]> (agents s)) s).
Proof.
  induction n as [|n IH]; intros j s a s' Ha Hlen.
  - assert (Hd : exists u, drop j path = [u]).
    { pose proof (length_drop path j) as E.
      destruct (drop j path) as [|u [|v r]]; simpl in E; [lia|eauto|lia]. }
    destruct Hd as [u ->]. cbn [for_range resolved_path]. unfold ret.
    assert (Hs : with_log (log s ++ [])
              (with_agents (<[i:=a]> (agents s)) s) = s).
    { rewrite app_nil_r, list_insert_id by done. apply with_log_agents_eta. }
    split.
    + intros [= <-]. exists []. split; [done|]. split; [done|]. exact (eq_sym Hs).
    + intros (steps & [= <-] & _ & ->). f_equal. exact (eq_sym Hs).
  - assert (Hj : exists u v r, drop j path = u :: v :: r).
    { pose proof (length_drop path j) as E.
      destruct (drop j path) as [|u [|v r]]; simpl in E; [lia|lia|eauto]. }
    destruct Hj as (u & v & r & Hd).
    destruct (drop_two _ _ _ _ _ Hd) as (Hu & Hv & Hd').
    rewrite Hd, resolved_path_cons.
    cbn [for_range]. unfold bind at 1.
    rewrite (route_edge_eq i path j s a u v Hu Hv Ha).
    destruct (edge_id (network_ s) u v) as [eid|] eqn:Heid;
      [|split; [done | by intros (? & ? & _)]].
    destruct (eid2mid (lanemap_ s) !! eid) as [mid|] eqn:Hmid;
      [|split; [done | by intros (? & ? & _)]].
    cbv zeta. case_bool_decide as Hcap.
    + set (s1 := with_log _ _).
      assert (Ha1 : agents s1 !! i = Some (push_route mid a)).
      { apply list_lookup_insert_eq. by eapply lookup_lt_Some. }
      rewrite (IH (S j) s1 (push_route mid a) s' Ha1) by lia.
      rewrite Hd'.
      change (network_ s1) with (network_ s). change (lanemap_ s1) with (lanemap_ s).
      assert (Hs1 : forall steps,
        with_log (log s1 ++ edge_events i (route_size (push_route mid a)) steps)
          (with_agents (<[i:=extend_route (mids_of steps) (push_route mid a)]> (agents s1)) s1)
        = with_log (log s ++ edge_events i (route_size a) ((u, v, eid, mid) :: steps))
            (with_agents (<[i:=extend_route (mids_of ((u, v, eid, mid) :: steps)) a]> (agents s)) s)).
      { intros steps. subst s1. unfold with_log, with_agents; simpl.
        by rewrite list_insert_insert_eq, <- app_assoc. }
      assert (Hcap1 : capacity (push_route mid a) = capacity a).
      { unfold capacity; simpl. apply length_insert. }
      destruct (resolved_path (network_ s) (lanemap_ s) (v :: r)) as [steps'|].
      * split.
        -- intros (steps & [= <-] & Hroom & ->). eexists; split; [done|]. split.
           ++ intros _. destruct steps' as [|st steps'].
              ** simpl. lia.
              ** specialize (Hroom ltac:(done)). rewrite Hcap1 in Hroom.
                 simpl in *. lia.
           ++ apply Hs1.
        -- intros (steps & [= <-] & Hroom & ->). exists steps'. split; [done|]. split.
           ++ intros _. specialize (Hroom ltac:(done)). rewrite Hcap1.
              simpl in *. lia.
           ++ symmetry. apply Hs1.
      * split; [by intros (? & ? & _) | by intros (? & ? & _)].
    + split; [done|]. intros (steps & Hr & Hroom & _).
      destruct (resolved_path _ _ (v :: r)) as [steps'|]; [|discriminate Hr].
      injection Hr as <-. specialize (Hroom ltac:(done)). simpl in Hroom. lia.
Qed.

(** One iteration of the outer loop. *)
Lemma assign_route_returned i path s s' :
  assign_route i path s = (Returned tt, s') <->
  exists a steps,
    agents s !! i = Some a /\
    resolved_path (network_ s) (lanemap_ s) path = Some steps /\
    (steps <> [] -> (route_size a + length steps <= capacity a)%nat) /\
    s' = with_log (log s ++ agent_events i a path steps)
           (with_agents (<[i := extend_route (mids_of steps) a]> (agents s)) s).
Proof.
  unfold assign_route. unfold bind at 1. unfold gets at 1.
  unfold bind at 1. destruct (agents s !! i) as [a|] eqn:Ha; cbn [unchecked];
    [|split; [done | by intros (? & ? & ? & _)]].
  unfold ret at 1. unfold bind at 1.
  set (warn := if bool_decide (100 < length path)%nat
               then [WarnLongRoute i (length path)] else []).
  assert (Hw : (if bool_decide (100 < length path)%nat
                then emit (WarnLongRoute i (length path)) else ret tt) s
               = (Returned tt, with_log (log s ++ warn) s)).
  { subst warn. case_bool_decide; [done|].
    unfold ret. rewrite app_nil_r. by destruct s. }
  rewrite Hw. set (s0 := with_log (log s ++ warn) s).
  assert (Ha0 : agents s0 !! i = Some a) by exact Ha.
  unfold agent_events. fold warn.
  clearbody warn. clear Hw.
  destruct (decide (length path = 0)%nat) as [Hlen|Hlen];
    [rewrite !(bool_decide_eq_true_2 (length path = 0%nat)) by done
    |rewrite !(bool_decide_eq_false_2 (length path = 0%nat)) by done].
  - destruct path; [|done]. cbn [resolved_path].
    unfold emit, modify. subst s0. split.
    + intros [= <-]. exists a, []. split; [done|]. split; [done|]. split; [done|].
      cbn [extend_route mids_of fmap list_fmap]. rewrite list_insert_id by done.
      destruct s; unfold with_log, with_agents; simpl. by rewrite <- app_assoc.
    + intros (a' & steps & [= <-] & [= <-] & _ & ->).
      cbn [extend_route mids_of fmap list_fmap]. rewrite list_insert_id by done.
      destruct s; unfold with_log, with_agents; simpl. by rewrite <- app_assoc.
  - rewrite (for_range_route_edge i path (length path - 1) 0 s0 a s' Ha0) by lia.
    rewrite drop_0.
    change (network_ s0) with (network_ s). change (lanemap_ s0) with (lanemap_ s).
    assert (Hs0 : forall steps,
      with_log (log s0 ++ edge_events i (route_size a) steps)
        (with_agents (<[i:=extend_route (mids_of steps) a]> (agents s0)) s0)
      = with_log (log s ++ warn ++ edge_events i (route_size a) steps)
          (with_agents (<[i:=extend_route (mids_of steps) a]> (agents s)) s)).
    { intros steps. subst s0. destruct s; unfold with_log, with_agents; simpl.
      by rewrite <- app_assoc. }
    split.
    + intros (steps & Hr & Hroom & ->). exists a, steps. by rewrite Hs0.
    + intros (a' & steps & [= <-] & Hr & Hroom & ->). exists steps. by rewrite Hs0.
Qed.

Lemma events_of_app i tr1 tr2 :
  events_of i (tr1 ++ tr2) = events_of i tr1 ++ events_of i tr2.
Proof. apply filter_app. Qed.

Lemma events_of_edge_events i j k steps :
  events_of i (edge_events j k steps) =
    if decide (i = j) then edge_events j k steps else [].
Proof.
  revert k. induction steps as [|[[[u v] eid] mid] steps IH]; intros k.
  - by destruct (decide _).
  - cbn [edge_events]. unfold events_of in *.
    rewrite !filter_cons. cbn [agent_of_event]. rewrite IH.
    destruct (decide (i = j)) as [->|Hne].
    + by rewrite !decide_True.
    + rewrite !decide_False; [done|congruence..].
Qed.

Lemma events_of_agent_events i j a path steps :
  events_of i (agent_events j a path steps) =
    if decide (i = j) then agent_events j a path steps else [].
Proof.
  unfold agent_events. rewrite events_of_app.
  assert (H1 : forall e, agent_of_event e = Some j ->
            events_of i [e] = if decide (i = j) then [e] else []).
  { intros e He. unfold events_of. rewrite filter_cons, He.
    destruct (decide (i = j)) as [->|Hne].
    - by rewrite decide_True.
    - rewrite decide_False; [done|congruence]. }
  assert (H0 : events_of i [] = if decide (i = j) then [] else [])
    by by destruct (decide _).
  repeat case_bool_decide;
    rewrite ?H1, ?H0, ?events_of_edge_events by done;
    by destruct (decide (i = j)).
Qed.

Lemma init_intersection_extend mids a :
  init_intersection (extend_route mids a) = init_intersection a /\
  end_intersection (extend_route mids a) = end_intersection a.
Proof.
  revert a. induction mids as [|m mids IH]; intros a; [done|].
  cbn [extend_route]. destruct (IH (push_route m a)) as [-> ->]. done.
Qed.

(** The outer loop over the paths [i0], [i0 + 1], ... *)
Lemma for_each_assign_route paths :
  forall i0 s s',
    for_each assign_route i0 paths s = (Returned tt, s') ->
    same_setting s s' /\
    init_intersection <$> agents s' = init_intersection <$> agents s /\
    end_intersection <$> agents s' = end_intersection <$> agents s /\
    (forall i, (i < i0)%nat -> agents s' !! i = agents s !! i) /\
    (forall i, (i0 + length paths <= i)%nat -> agents s' !! i = agents s !! i) /\
    exists tr,
      log s' = log s ++ tr /\
      (forall i, (i < i0)%nat -> events_of i tr = []) /\
      forall k path, paths !! k = Some path ->
        exists a steps,
          agents s !! (i0 + k)%nat = Some a /\
          resolved_path (network_ s) (lanemap_ s) path = Some steps /\
          (steps <> [] -> (route_size a + length steps <= capacity a)%nat) /\
          agents s' !! (i0 + k)%nat = Some (extend_route (mids_of steps) a) /\
          events_of (i0 + k) tr = agent_events (i0 + k) a path steps.
Proof.
  induction paths as [|path paths IH]; intros i0 s s' Hrun.
  - injection Hrun as <-. repeat split; try done.
    exists []. split; [by rewrite app_nil_r|]. split; [done|].
    intros k path Hk. by rewrite lookup_nil in Hk.
  - cbn [for_each] in Hrun. unfold bind in Hrun.
    destruct (assign_route i0 path s) as [[[]| | |] s1] eqn:H1; try done.
    apply assign_route_returned in H1 as (a & steps & Ha & Hr & Hroom & ->).
    set (s1 := with_log _ _) in Hrun.
    destruct (IH (S i0) s1 s' Hrun)
      as (Hset & Hini & Hend & Hlow & Hhigh & tr & Hlog & Hbefore & Hpaths).
    assert (Hi0 : (i0 < length (agents s))%nat) by by eapply lookup_lt_Some.
    split; [exact Hset|].
    split.
    { rewrite Hini. subst s1. cbn [agents with_log with_agents].
      rewrite list_fmap_insert, (proj1 (init_intersection_extend _ _)).
      apply list_insert_id. by rewrite list_lookup_fmap, Ha. }
    split.
    { rewrite Hend. subst s1. cbn [agents with_log with_agents].
      rewrite list_fmap_insert, (proj2 (init_intersection_extend _ _)).
      apply list_insert_id. by rewrite list_lookup_fmap, Ha. }
    split.
    { intros i Hi. rewrite Hlow by lia. subst s1. cbn [agents with_log with_agents].
      apply list_lookup_insert_ne. lia. }
    split.
    { intros i Hi. cbn [length] in Hi. rewrite Hhigh by lia.
      subst s1. cbn [agents with_log with_agents].
      apply list_lookup_insert_ne. lia. }
    exists (agent_events i0 a path steps ++ tr). split.
    { rewrite Hlog. subst s1. cbn [log with_log with_agents]. by rewrite app_assoc. }
    split.
    { intros i Hi. rewrite events_of_app, events_of_agent_events, Hbefore by lia.
      rewrite decide_False by lia. done. }
    intros [|k] path' Hk.
    + injection Hk as <-. rewrite Nat.add_0_r. exists a, steps.
      split; [done|]. split; [done|]. split; [done|]. split.
      * rewrite Hlow by lia. subst s1. cbn [agents with_log with_agents].
        by apply list_lookup_insert_eq.
      * rewrite events_of_app, events_of_agent_events, Hbefore by lia.
        rewrite decide_True by done. apply app_nil_r.
    + cbn [lookup list_lookup] in Hk.
      destruct (Hpaths k path' Hk) as (a' & steps' & Ha' & Hr' & Hroom' & Hs' & Hev).
      replace (S i0 + k)%nat with (i0 + S k)%nat in * by lia.
      exists a', steps'. split.
      { rewrite <- Ha'. subst s1. cbn [agents with_log with_agents].
        symmetry. apply list_lookup_insert_ne. lia. }
      split; [exact Hr'|]. split; [exact Hroom'|]. split; [exact Hs'|].
      rewrite events_of_app, events_of_agent_events, Hev.
      rewrite decide_False by lia. done.
Qed.

Lemma route_finding_returned s s' :
  route_finding_ s = (Returned tt, s') ->
  for_each assign_route 0 (node_sequence_of s) s = (Returned tt, s').
Proof. done. Qed.

Lemma route_entries_extend mids :
  forall a,
    (route_size a + length mids <= capacity a)%nat ->
    route_entries (extend_route mids a) = route_entries a ++ mids /\
    route_size (extend_route mids a) = (route_size a + length mids)%nat /\
    capacity (extend_route mids a) = capacity a.
Proof.
  induction mids as [|m mids IH]; intros a Hroom.
  - cbn [extend_route length]. by rewrite app_nil_r, Nat.add_0_r.
  - cbn [extend_route length] in *.
    assert (Hc : capacity (push_route m a) = capacity a).
    { unfold capacity; simpl. apply length_insert. }
    destruct (IH (push_route m a)) as (He & Hs & Hcap).
    { rewrite Hc. simpl. lia. }
    rewrite He, Hs, Hcap, Hc. split; [|split; [simpl; lia|done]].
    unfold route_entries. simpl.
    rewrite (take_S_r _ _ m).
    + rewrite take_insert_ge by lia. by rewrite <- app_assoc.
    + apply list_lookup_insert_eq. unfold capacity in Hroom. lia.
Qed.

Lemma resolved_path_round_trip net (lm : Lanemap Acc) path :
  network_consistent net -> mapping_inverse lm ->
  forall steps,
    resolved_path net lm path = Some steps ->
    vertex_pair_of_mid net lm <$> mids_of steps = Some <$> consecutive_pairs path.
Proof.
  intros Hnet Hinv.
  induction path as [|u [|v rest] IH]; intros steps Hr.
  - by injection Hr as <-.
  - by injection Hr as <-.
  - rewrite resolved_path_cons in Hr.
    destruct (edge_id net u v) as [eid|] eqn:Heid; [|done].
    destruct (eid2mid lm !! eid) as [mid|] eqn:Hmid; [|done].
    destruct (resolved_path net lm (v :: rest)) as [steps'|]; [|done].
    injection Hr as <-.
    change (consecutive_pairs (u :: v :: rest)) with ((u, v) :: consecutive_pairs (v :: rest)).
    cbn [mids_of fmap list_fmap snd]. f_equal.
    + unfold vertex_pair_of_mid. rewrite (Hinv _ _ Hmid). by apply Hnet.
    + by apply IH.
Qed.

Lemma edge_events_store i j k steps idx mid :
  RouteStore i idx mid ∈ edge_events j k steps ->
  i = j /\ (k <= idx < k + length steps)%nat.
Proof.
  revert k. induction steps as [|[[[u v] eid] m] steps IH]; intros k Hin.
  - by apply elem_of_nil in Hin.
  - cbn [edge_events length] in *.
    rewrite !elem_of_cons in Hin.
    destruct Hin as [?|[?|[Heq|Hin]]]; try done.
    + injection Heq as -> -> ->. split; [done|lia].
    + destruct (IH _ Hin) as [-> ?]. split; [done|lia].
Qed.

(** What a returning run did for agent [i]. *)
Lemma route_finding_agent s s' i path :
  route_finding_ s = (Returned tt, s') ->
  node_sequence_of s !! i = Some path ->
  exists a steps tr,
    agents s !! i = Some a /\
    resolved_path (network_ s) (lanemap_ s) path = Some steps /\
    (steps <> [] -> (route_size a + length steps <= capacity a)%nat) /\
    agents s' !! i = Some (extend_route (mids_of steps) a) /\
    log s' = log s ++ tr /\
    events_of i tr = agent_events i a path steps.
Proof.
  intros Hrun Hpath. apply route_finding_returned in Hrun.
  apply for_each_assign_route in Hrun
    as (_ & _ & _ & _ & _ & tr & Hlog & _ & Hpaths).
  destruct (Hpaths i path Hpath) as (a & steps & Ha & Hr & Hroom & Ha' & Hev).
  exists a, steps, tr. done.
Qed.

Lemma extend_route_fits a steps :
  (steps <> [] -> (route_size a + length steps <= capacity a)%nat) ->
  route_entries (extend_route (mids_of steps) a) = route_entries a ++ mids_of steps /\
  route_size (extend_route (mids_of steps) a) = (route_size a + length steps)%nat.
Proof.
  intros Hroom. destruct steps as [|st steps].
  - cbn. by rewrite app_nil_r, Nat.add_0_r.
  - specialize (Hroom ltac:(done)).
    destruct (route_entries_extend (mids_of (st :: steps)) a) as (He & Hs & _).
    + unfold mids_of. by rewrite length_fmap.
    + rewrite He, Hs. unfold mids_of. by rewrite length_fmap.
Qed.

(** C1.  Round trip.  Let route assignment return, and let agent [i] have
    a non-empty batch result [path].  Then the merged edge ids appended to
    the agent's route buffer (the entries in use afterwards are the ones
    in use before followed by [mids]), each mapped back through
    [mid -> eid] and resolved to the vertex pair of that graph edge, are
    exactly the pairs of consecutive vertices of [path].  The network's
    [edge_id] and the lanemap's two maps are assumed to keep their
    contracts. *)
Theorem route_round_trip s s' i a path :
  network_consistent (network_ s) ->
  mapping_inverse (lanemap_ s) ->
  route_finding_ s = (Returned tt, s') ->
  agents s !! i = Some a ->
  node_sequence_of s !! i = Some path ->
  path <> [] ->
  exists a' mids,
    agents s' !! i = Some a' /\
    route_entries a' = route_entries a ++ mids /\
    route_size a' = (route_size a + length mids)%nat /\
    vertex_pair_of_mid (network_ s) (lanemap_ s) <$> mids
      = Some <$> consecutive_pairs path.
Proof.
  intros Hnet Hinv Hrun Ha Hpath _.
  destruct (route_finding_agent _ _ _ _ Hrun Hpath)
    as (a0 & steps & tr & Ha0 & Hr & Hroom & Ha' & _).
  assert (a0 = a) as -> by congruence.
  destruct (extend_route_fits a steps Hroom) as [He Hs].
  exists (extend_route (mids_of steps) a), (mids_of steps).
  split; [done|]. split; [done|]. split.
  - rewrite Hs. unfold mids_of. by rewrite length_fmap.
  - by apply resolved_path_round_trip.
Qed.

(** C8.  No path found.  Let route assignment return and let the batch
    result of a fresh agent [i] be the empty sequence.  Then the agent is
    left exactly as it was, so its [route_size] is still 0, and the only
    effect of the run that concerns agent [i] is one warning carrying its
    index: no lookup, no store, no second warning. *)
Theorem no_route_warned_once s s' i a :
  route_finding_ s = (Returned tt, s') ->
  agents s !! i = Some a ->
  route_size a = 0%nat ->
  node_sequence_of s !! i = Some [] ->
  exists a' tr,
    agents s' !! i = Some a' /\ a' = a /\ route_size a' = 0%nat /\
    log s' = log s ++ tr /\
    events_of i tr = [WarnNoRoute i].
Proof.
  intros Hrun Ha Hfresh Hpath.
  destruct (route_finding_agent _ _ _ _ Hrun Hpath)
    as (a0 & steps & tr & Ha0 & Hr & _ & Ha' & Hlog & Hev).
  assert (a0 = a) as -> by congruence.
  injection Hr as <-. exists a, tr. done.
Qed.

(** C9.  Trivial path.  Let route assignment return and let the batch
    result of a fresh agent [i] be a single vertex.  Then the agent is
    left exactly as it was ([route_size] 0) and the run has no effect at
    all that concerns agent [i]: neither [edge_id] nor [eid2mid] is
    consulted, nothing is stored and no warning is printed. *)
Theorem single_vertex_path_untouched s s' i a v :
  route_finding_ s = (Returned tt, s') ->
  agents s !! i = Some a ->
  route_size a = 0%nat ->
  node_sequence_of s !! i = Some [v] ->
  exists a' tr,
    agents s' !! i = Some a' /\ a' = a /\ route_size a' = 0%nat /\
    log s' = log s ++ tr /\
    events_of i tr = [].
Proof.
  intros Hrun Ha Hfresh Hpath.
  destruct (route_finding_agent _ _ _ _ Hrun Hpath)
    as (a0 & steps & tr & Ha0 & Hr & _ & Ha' & Hlog & Hev).
  assert (a0 = a) as -> by congruence.
  injection Hr as <-. exists a, tr. done.
Qed.

Lemma node_sequence_of_stable s s' :
  route_finding_ s = (Returned tt, s') -> node_sequence_of s' = node_sequence_of s.
Proof.
  intros Hrun. apply route_finding_returned in Hrun.
  apply for_each_assign_route in Hrun as ((Hnet & _) & Hini & Hend & _).
  unfold node_sequence_of. by rewrite Hnet, Hini, Hend.
Qed.

(** C4, as amended.  Route assignment appends at the current
    [route_size] and never resets it.  When it is run on its own result,
    every agent with a batch result gets the same merged-edge sequence
    [mids] appended once more: after the first run the entries in use are
    the original ones followed by [mids], after the second run those
    followed by [mids] again, and [route_size] grows by [length mids]
    (the number of edges of the path) each time.  The agent is the same
    after both runs exactly when its path has no edge. *)
Theorem second_run_appends_again s0 s1 s2 i a0 path :
  route_finding_ s0 = (Returned tt, s1) ->
  route_finding_ s1 = (Returned tt, s2) ->
  agents s0 !! i = Some a0 ->
  node_sequence_of s0 !! i = Some path ->
  exists a1 a2 mids,
    agents s1 !! i = Some a1 /\ agents s2 !! i = Some a2 /\
    length mids = (length path - 1)%nat /\
    route_entries a1 = route_entries a0 ++ mids /\
    route_entries a2 = route_entries a1 ++ mids /\
    route_size a1 = (route_size a0 + length mids)%nat /\
    route_size a2 = (route_size a1 + length mids)%nat /\
    (a2 = a1 <-> mids = []).
Proof.
  intros Hrun1 Hrun2 Ha0 Hpath.
  pose proof (node_sequence_of_stable _ _ Hrun1) as Hns.
  destruct (route_finding_agent _ _ _ _ Hrun1 Hpath)
    as (a & steps & tr & Ha & Hr & Hroom & Ha1 & _).
  assert (a = a0) as -> by congruence.
  rewrite <- Hns in Hpath.
  destruct (route_finding_agent _ _ _ _ Hrun2 Hpath)
    as (a1 & steps' & tr' & Ha1' & Hr' & Hroom' & Ha2 & _).
  assert (a1 = extend_route (mids_of steps) a0) as -> by congruence.
  apply route_finding_returned, for_each_assign_route in Hrun1
    as ((Hnet & Hlm & _) & _).
  rewrite Hnet, Hlm, Hr in Hr'. injection Hr' as <-.
  destruct (extend_route_fits _ _ Hroom) as [He1 Hs1].
  destruct (extend_route_fits _ _ Hroom') as [He2 Hs2].
  assert (Hlen : length (mids_of steps) = length steps)
    by (unfold mids_of; apply length_fmap).
  eexists _, _, (mids_of steps).
  split; [done|]. split; [done|]. rewrite Hlen. split.
  { by eapply resolved_path_length. }
  split; [done|]. split; [done|]. split; [done|]. split; [done|]. split.
  - intros Heq. apply (f_equal route_size) in Heq. rewrite Hs2 in Heq.
    destruct steps; [done|]. simpl in Heq. lia.
  - intros Hnil. destruct steps; [done|]. done.
Qed.

(** A path whose edges all resolve and fit: the iteration for that agent
    appends them all and returns. *)
Lemma assign_route_fits s i a path steps :
  agents s !! i = Some a ->
  resolved_path (network_ s) (lanemap_ s) path = Some steps ->
  (route_size a + length steps <= capacity a)%nat ->
  exists s' a',
    assign_route i path s = (Returned tt, s') /\
    agents s' !! i = Some a' /\
    route_entries a' = route_entries a ++ mids_of steps /\
    route_size a' = (route_size a + (length path - 1))%nat /\
    (route_size a' <= capacity a')%nat /\
    log s' = log s ++ agent_events i a path steps /\
    (forall idx mid,
       RouteStore i idx mid ∈ agent_events i a path steps -> (idx < capacity a)%nat) /\
    (WarnLongRoute i (length path) ∈ agent_events i a path steps
       <-> (100 < length path)%nat).
Proof.
  intros Ha Hr Hroom.
  destruct (route_entries_extend (mids_of steps) a) as (He & Hs & Hcap).
  { unfold mids_of. by rewrite length_fmap. }
  unfold mids_of in Hs. rewrite length_fmap in Hs. fold (mids_of steps) in Hs.
  eexists _, (extend_route (mids_of steps) a). split.
  { apply assign_route_returned. exists a, steps. done. }
  cbn [agents log with_log with_agents].
  split. { apply list_lookup_insert_eq. by eapply lookup_lt_Some. }
  split; [done|]. split.
  { rewrite Hs. by rewrite (resolved_path_length _ _ _ _ Hr). }
  split. { rewrite Hs, Hcap. done. }
  split; [done|]. split.
  - intros idx mid. unfold agent_events. rewrite elem_of_app.
    intros [Hin|Hin].
    + case_bool_decide; [|by apply elem_of_nil in Hin].
      by apply list_elem_of_singleton in Hin.
    + case_bool_decide; [by apply list_elem_of_singleton in Hin|].
      apply edge_events_store in Hin. lia.
  - unfold agent_events. rewrite elem_of_app. split.
    + intros [Hin|Hin].
      * case_bool_decide; [done|by apply elem_of_nil in Hin].
      * case_bool_decide; [by apply list_elem_of_singleton in Hin|].
        exfalso. clear -Hin. revert Hin. generalize (route_size a).
        induction steps as [|[[[u v] eid] m] steps IH]; intros k Hin.
        -- by apply elem_of_nil in Hin.
        -- cbn [edge_events] in Hin. rewrite !elem_of_cons in Hin.
           destruct Hin as [?|[?|[?|Hin]]]; try done. by eapply IH.
    + intros Hlong. left. rewrite bool_decide_eq_true_2 by done.
      by apply list_elem_of_singleton.
Qed.

Lemma walk_cons net (lm : Lanemap Acc) i k room u v rest :
  walk net lm i k room (u :: v :: rest) =
    match edge_id net u v with
    | None => (Threw no_such_edge, [CallEdgeId i u v], [])
    | Some eid =>
        match eid2mid lm !! eid with
        | None => (Threw out_of_range, [CallEdgeId i u v; CallEid2MidAt i eid], [])
        | Some mid =>
            match room with
            | O => (Undefined StorePastCapacity,
                    [CallEdgeId i u v; CallEid2MidAt i eid; RouteStore i k mid], [])
            | S room' =>
                let r := walk net lm i (S k) room' (v :: rest) in
                (r.1.1,
                 CallEdgeId i u v :: CallEid2MidAt i eid :: RouteStore i k mid :: r.1.2,
                 mid :: r.2)
            end
        end
    end.
Proof. reflexivity. Qed.

Lemma for_range_route_edge_walk i path n :
  forall j s a,
    agents s !! i = Some a ->
    (S j + n = length path)%nat ->
    let r := walk (network_ s) (lanemap_ s) i (route_size a)
                  (capacity a - route_size a) (drop j path) in
    for_range n j (route_edge i path) s =
      (r.1.1, with_log (log s ++ r.1.2)
                (with_agents (<[i := extend_route r.2 a]> (agents s)) s)).
Proof.
  induction n as [|n IH]; intros j s a Ha Hlen; cbv zeta.
  - assert (Hd : exists u, drop j path = [u]).
    { pose proof (length_drop path j) as E.
      destruct (drop j path) as [|u [|v r]]; simpl in E; [lia|eauto|lia]. }
    destruct Hd as [u ->]. cbn [for_range walk fst snd extend_route]. unfold ret.
    rewrite app_nil_r, list_insert_id by done. by rewrite with_log_agents_eta.
  - assert (Hj : exists u v r, drop j path = u :: v :: r).
    { pose proof (length_drop path j) as E.
      destruct (drop j path) as [|u [|v r]]; simpl in E; [lia|lia|eauto]. }
    destruct Hj as (u & v & r & Hd).
    destruct (drop_two _ _ _ _ _ Hd) as (Hu & Hv & Hd').
    rewrite Hd, walk_cons. cbn [for_range]. unfold bind at 1.
    rewrite (route_edge_eq i path j s a u v Hu Hv Ha).
    destruct (edge_id (network_ s) u v) as [eid|].
    2:{ cbn [fst snd extend_route]. by rewrite list_insert_id. }
    destruct (eid2mid (lanemap_ s) !! eid) as [mid|].
    2:{ cbn [fst snd extend_route]. by rewrite list_insert_id. }
    cbv zeta. case_bool_decide as Hcap.
    + destruct (capacity a - route_size a)%nat as [|room'] eqn:Hroom; [lia|].
      set (s1 := with_log _ _).
      assert (Ha1 : agents s1 !! i = Some (push_route mid a)).
      { apply list_lookup_insert_eq. by eapply lookup_lt_Some. }
      rewrite (IH (S j) s1 (push_route mid a) Ha1) by lia. rewrite Hd'.
      change (network_ s1) with (network_ s). change (lanemap_ s1) with (lanemap_ s).
      assert (Hc : capacity (push_route mid a) = capacity a).
      { unfold capacity; simpl. apply length_insert. }
      rewrite Hc. change (route_size (push_route mid a)) with (S (route_size a)).
      replace (capacity a - S (route_size a))%nat with room' by lia.
      cbn [fst snd extend_route]. f_equal.
      subst s1. unfold with_log, with_agents; cbn.
      by rewrite list_insert_insert_eq, <- app_assoc.
    + destruct (capacity a - route_size a)%nat as [|room'] eqn:Hroom; [|lia].
      cbn [fst snd extend_route]. by rewrite list_insert_id.
Qed.

(** One iteration of the outer loop, whatever its outcome. *)
Lemma assign_route_walk i path s :
  assign_route i path s =
    match agents s !! i with
    | None => (Undefined IndexPastEnd, s)
    | Some a =>
        let warn := if bool_decide (100 < length path)%nat
                    then [WarnLongRoute i (length path)] else [] in
        if bool_decide (length path = 0)%nat
        then (Returned tt, with_log (log s ++ warn ++ [WarnNoRoute i]) s)
        else
          let r := walk (network_ s) (lanemap_ s) i (route_size a)
                        (capacity a - route_size a) path in
          (r.1.1, with_log (log s ++ warn ++ r.1.2)
                    (with_agents (<[i := extend_route r.2 a]> (agents s)) s))
    end.
Proof.
  unfold assign_route. unfold bind at 1. unfold gets at 1. unfold bind at 1.
  destruct (agents s !! i) as [a|] eqn:Ha; cbn [unchecked]; [|done].
  unfold ret at 1. unfold bind at 1. cbv zeta.
  set (warn := if bool_decide (100 < length path)%nat
               then [WarnLongRoute i (length path)] else []).
  assert (Hw : (if bool_decide (100 < length path)%nat
                then emit (WarnLongRoute i (length path)) else ret tt) s
               = (Returned tt, with_log (log s ++ warn) s)).
  { subst warn. case_bool_decide; [done|].
    unfold ret. rewrite app_nil_r. by destruct s. }
  rewrite Hw. clearbody warn. clear Hw. set (s0 := with_log (log s ++ warn) s).
  destruct (decide (length path = 0)%nat) as [Hlen|Hlen];
    [rewrite !(bool_decide_eq_true_2 (length path = 0%nat)) by done
    |rewrite !(bool_decide_eq_false_2 (length path = 0%nat)) by done].
  - unfold emit, modify. subst s0. destruct s; unfold with_log; cbn.
    by rewrite <- app_assoc.
  - assert (Ha0 : agents s0 !! i = Some a) by exact Ha.
    rewrite (for_range_route_edge_walk i path (length path - 1) 0 s0 a Ha0) by lia.
    rewrite drop_0. cbv zeta.
    change (network_ s0) with (network_ s). change (lanemap_ s0) with (lanemap_ s).
    f_equal. subst s0. destruct s; unfold with_log, with_agents; cbn.
    by rewrite <- app_assoc.
Qed.

(** While the edges resolve and fit, the walk stores them and moves on. *)
Lemma walk_prefix net (lm : Lanemap Acc) i p :
  forall path k room steps,
    (p < length path)%nat ->
    resolved_path net lm (take (S p) path) = Some steps ->
    (p <= room)%nat ->
    let r := walk net lm i (k + p) (room - p) (drop p path) in
    length steps = p /\
    walk net lm i k room path
      = (r.1.1, edge_events i k steps ++ r.1.2, mids_of steps ++ r.2).
Proof.
  induction p as [|p IH]; intros path k room steps Hp Hr Hroom; cbv zeta.
  - destruct path as [|u path]; [simpl in Hp; lia|].
    cbn in Hr. injection Hr as <-.
    rewrite Nat.add_0_r, Nat.sub_0_r, drop_0. cbn [edge_events mids_of fmap list_fmap app].
    split; [done|]. by destruct (walk _ _ _ _ _ _) as [[? ?] ?].
  - destruct path as [|u [|v rest]]; [simpl in Hp; lia..|].
    change (take (S (S p)) (u :: v :: rest)) with (u :: take (S p) (v :: rest)) in Hr.
    change (take (S p) (v :: rest)) with (v :: take p rest) in Hr.
    rewrite resolved_path_cons in Hr.
    rewrite walk_cons.
    destruct (edge_id net u v) as [eid|]; [|done].
    destruct (eid2mid lm !! eid) as [mid|]; [|done].
    change (v :: take p rest) with (take (S p) (v :: rest)) in Hr.
    destruct (resolved_path net lm (take (S p) (v :: rest))) as [steps'|] eqn:Hr'; [|done].
    injection Hr as <-.
    destruct room as [|room']; [lia|].
    destruct (IH (v :: rest) (S k) room' steps') as [Hlen Hw].
    { simpl in Hp |- *. lia. }
    { done. }
    { lia. }
    cbv zeta. rewrite Hw. cbn [fst snd drop].
    replace (S k + p)%nat with (k + S p)%nat by lia.
    replace (S room' - S p)%nat with (room' - p)%nat by lia.
    split; [simpl; lia|]. done.
Qed.

(** The walk along a path whose edges all resolve: it ends well when they
    fit, and at the store that follows the last free entry otherwise. *)
Lemma walk_resolved net (lm : Lanemap Acc) i path :
  forall k room steps,
    resolved_path net lm path = Some steps ->
    walk net lm i k room path =
      if decide (length steps <= room)%nat
      then (Returned tt, edge_events i k steps, mids_of steps)
      else (Undefined StorePastCapacity, edge_events i k (take (S room) steps),
            take room (mids_of steps)).
Proof.
  induction path as [|u [|v rest] IH]; intros k room steps Hr.
  - injection Hr as <-. cbn. by rewrite decide_True by lia.
  - injection Hr as <-. cbn. by rewrite decide_True by lia.
  - rewrite resolved_path_cons in Hr. rewrite walk_cons.
    destruct (edge_id net u v) as [eid|]; [|done].
    destruct (eid2mid lm !! eid) as [mid|]; [|done].
    destruct (resolved_path net lm (v :: rest)) as [steps'|] eqn:Hr'; [|done].
    injection Hr as <-.
    destruct room as [|room'].
    + rewrite decide_False by (simpl; lia). done.
    + cbv zeta. rewrite (IH (S k) room' steps' eq_refl).
      destruct (decide (length steps' <= room')%nat).
      * rewrite decide_True by (simpl; lia). done.
      * rewrite decide_False by (simpl; lia). done.
Qed.

Lemma edge_events_last i k steps u v eid mid :
  last (edge_events i k (steps ++ [(u, v, eid, mid)]))
    = Some (RouteStore i (k + length steps) mid).
Proof.
  revert k. induction steps as [|[[[u' v'] eid'] mid'] steps IH]; intros k.
  - cbn. by rewrite Nat.add_0_r.
  - cbn [edge_events app length]. rewrite !last_cons, IH.
    by replace (S k + length steps)%nat with (k + S (length steps))%nat by lia.
Qed.

Lemma warn_long_in_agent_events i a path steps :
  WarnLongRoute i (length path) ∈ agent_events i a path steps
    <-> (100 < length path)%nat.
Proof.
  unfold agent_events. rewrite elem_of_app. split.
  - intros [Hin|Hin].
    + case_bool_decide; [done|by apply elem_of_nil in Hin].
    + case_bool_decide; [by apply list_elem_of_singleton in Hin|].
      exfalso. clear -Hin. revert Hin. generalize (route_size a).
      induction steps as [|[[[u v] eid] m] steps IH]; intros k Hin.
      * by apply elem_of_nil in Hin.
      * cbn [edge_events] in Hin. rewrite !elem_of_cons in Hin.
        destruct Hin as [?|[?|[?|Hin]]]; try done. by eapply IH.
  - intros Hlong. left. rewrite bool_decide_eq_true_2 by done.
    by apply list_elem_of_singleton.
Qed.

(** A path whose edges all resolve but do not fit: the iteration for that
    agent fills the buffer and then stores past its end. *)
Lemma assign_route_overflows s i a path steps :
  agents s !! i = Some a ->
  resolved_path (network_ s) (lanemap_ s) path = Some steps ->
  (route_size a <= capacity a)%nat ->
  (capacity a < route_size a + length steps)%nat ->
  exists s' a' mid,
    assign_route i path s = (Undefined StorePastCapacity, s') /\
    agents s' !! i = Some a' /\
    route_size a' = capacity a /\
    route_entries a' = route_entries a ++ take (capacity a - route_size a) (mids_of steps) /\
    mids_of steps !! (capacity a - route_size a)%nat = Some mid /\
    last (log s') = Some (RouteStore i (capacity a) mid) /\
    log s' = log s ++ agent_events i a path (take (S (capacity a - route_size a)) steps).
Proof.
  intros Ha Hr Hle Hover.
  set (room := (capacity a - route_size a)%nat).
  assert (Hlen : length steps = (length path - 1)%nat) by by eapply resolved_path_length.
  destruct (lookup_lt_is_Some_2 steps room) as [[[[u v] eid] mid] Hst]; [lia|].
  rewrite assign_route_walk, Ha. cbv zeta.
  rewrite bool_decide_eq_false_2 by lia.
  rewrite (walk_resolved _ _ _ _ _ _ _ Hr), decide_False by lia.
  fold room. cbn [fst snd].
  destruct (route_entries_extend (take room (mids_of steps)) a) as (He & Hs & _).
  { rewrite length_take. unfold mids_of. rewrite length_fmap. lia. }
  eexists _, (extend_route (take room (mids_of steps)) a), mid.
  split; [done|]. cbn [agents log with_log with_agents]. split.
  { apply list_lookup_insert_eq. by eapply lookup_lt_Some. }
  split.
  { rewrite Hs, length_take. unfold mids_of. rewrite length_fmap. lia. }
  split; [done|]. split.
  { unfold mids_of. by rewrite list_lookup_fmap, Hst. }
  split.
  - rewrite (take_S_r _ _ _ Hst).
    rewrite !last_app, edge_events_last.
    rewrite length_take. f_equal. f_equal. lia.
  - unfold agent_events.
    by rewrite (bool_decide_eq_false_2 (length path = 0)%nat) by lia.
Qed.

(** C2, as amended.  The append is not bounds-checked and a long path is
    only warned about.  Take an agent whose lookups succeed.  When
    [route_size] plus the number of edges of its path is at most the
    capacity, the iteration of route assignment for that agent returns
    normally, appends every edge ([route_size] grows by the edge count and
    stays within capacity) and stores only at indices below the capacity.
    When the edges do not fit, no exception is raised and nothing is
    rejected: the buffer is filled to its capacity with the first edges of
    the path and the next edge is stored at index [capacity], past the end
    of the buffer, where the behaviour is undefined; that store is the
    last effect.  In both cases the long-route warning is printed exactly
    when the path has more than 100 intersections. *)
Theorem append_is_unchecked s i a path steps :
  agents s !! i = Some a ->
  resolved_path (network_ s) (lanemap_ s) path = Some steps ->
  ((route_size a + length steps <= capacity a)%nat ->
   exists s' a',
     assign_route i path s = (Returned tt, s') /\
     agents s' !! i = Some a' /\
     route_entries a' = route_entries a ++ mids_of steps /\
     route_size a' = (route_size a + (length path - 1))%nat /\
     (route_size a' <= capacity a')%nat /\
     log s' = log s ++ agent_events i a path steps /\
     (forall idx mid,
        RouteStore i idx mid ∈ agent_events i a path steps -> (idx < capacity a)%nat) /\
     (WarnLongRoute i (length path) ∈ agent_events i a path steps
        <-> (100 < length path)%nat)) /\
  ((route_size a <= capacity a < route_size a + length steps)%nat ->
   let room := (capacity a - route_size a)%nat in
   exists s' a' mid,
     assign_route i path s = (Undefined StorePastCapacity, s') /\
     agents s' !! i = Some a' /\
     route_size a' = capacity a /\
     route_entries a' = route_entries a ++ take room (mids_of steps) /\
     mids_of steps !! room = Some mid /\
     log s' = log s ++ agent_events i a path (take (S room) steps) /\
     last (log s') = Some (RouteStore i (capacity a) mid) /\
     (WarnLongRoute i (length path) ∈ agent_events i a path (take (S room) steps)
        <-> (100 < length path)%nat)).
Proof.
  intros Ha Hr. split.
  - intros Hroom. exact (assign_route_fits s i a path steps Ha Hr Hroom).
  - intros [Hle Hover]. cbv zeta.
    destruct (assign_route_overflows s i a path steps Ha Hr Hle Hover)
      as (s' & a' & mid & Hrun & Ha' & Hsize & Hent & Hmid & Hlast & Hlog).
    exists s', a', mid. do 5 (split; [done|]). split; [done|]. split; [done|].
    apply warn_long_in_agent_events.
Qed.
End RouteProofs.

(** ** Snapshots *)

Section SnapshotProofs.
Context {Acc : Type} `{!TravelSteps Acc} `{!Cuda Acc} `{!Accessibility} {fs : FileSystem}.
Implicit Types (s : TrafficSimulator Acc) (a : Agent).

Lemma only_files_differ_refl s : only_files_differ s s.
Proof. by repeat split. Qed.

Lemma only_files_differ_trans s1 s2 s3 :
  only_files_differ s1 s2 -> only_files_differ s2 s3 -> only_files_differ s1 s3.
Proof.
  intros (?&?&?&?&?&?&?) (?&?&?&?&?&?&?). repeat split; congruence.
Qed.

Lemma writes_only_files_ret {A} (x : A) : writes_only_files (ret x).
Proof. intros s. apply only_files_differ_refl. Qed.

Lemma writes_only_files_gets {A} (f : TrafficSimulator Acc -> A) :
  writes_only_files (gets f).
Proof. intros s. apply only_files_differ_refl. Qed.

Lemma writes_only_files_checked {A} e (o : option A) : writes_only_files (checked e o).
Proof. intros s. destruct o; apply only_files_differ_refl. Qed.

Lemma writes_only_files_bind {A B} (m : M Acc A) (k : A -> M Acc B) :
  writes_only_files m -> (forall x, writes_only_files (k x)) ->
  writes_only_files (bind m k).
Proof.
  intros Hm Hk s. unfold bind. specialize (Hm s).
  destruct (m s) as [[x| | |] s1]; simpl in *; try done.
  eapply only_files_differ_trans; [exact Hm | apply Hk].
Qed.

Lemma writes_only_files_write_row good name add :
  writes_only_files (write_row good name add).
Proof. intros s. destruct good; by repeat split. Qed.

Lemma writes_only_files_for_each {A} (body : nat -> A -> M Acc unit) l :
  (forall i x, writes_only_files (body i x)) ->
  forall i, writes_only_files (for_each body i l).
Proof.
  intros Hbody. induction l as [|x l IH]; intros i.
  - apply writes_only_files_ret.
  - apply writes_only_files_bind; [apply Hbody | intros _; apply IH].
Qed.

Lemma writes_only_files_for_range (body : nat -> M Acc unit) n :
  (forall i, writes_only_files (body i)) ->
  forall j, writes_only_files (for_range n j body).
Proof.
  intros Hbody. induction n as [|n IH]; intros j.
  - apply writes_only_files_ret.
  - apply writes_only_files_bind; [apply Hbody | intros _; apply IH].
Qed.

Lemma writes_only_files_save_edge good name me :
  writes_only_files (save_edge good name me).
Proof.
  unfold save_edge.
  repeat (first [apply writes_only_files_gets | apply writes_only_files_checked
                | apply writes_only_files_write_row
                | apply writes_only_files_bind | intros ?]).
Qed.

Lemma writes_only_files_save_agent good name i :
  writes_only_files (save_agent good name i).
Proof.
  unfold save_agent.
  repeat (first [apply writes_only_files_gets | apply writes_only_files_checked
                | apply writes_only_files_write_row
                | apply writes_only_files_bind | intros ?]).
Qed.

(** The state in which the rows of a file are written: the attempt to
    open it is logged, and the file is there, empty, when it could be
    opened. *)
Lemma open_file_eq name empty s :
  open_file name empty s =
    (Returned (openable name),
     if openable name
     then with_files (<[name := empty]> (files s)) (with_log (log s ++ [FileOpen name]) s)
     else with_log (log s ++ [FileOpen name]) s).
Proof. unfold open_file, bind, emit, modify, ret. by destruct (openable name). Qed.

Lemma open_file_only_files name empty s :
  only_files_differ (with_log (log s ++ [FileOpen name]) s) (open_file name empty s).2.
Proof. rewrite open_file_eq. cbn [snd]. by destruct (openable name). Qed.

Lemma save_edges_eq t s :
  let name := csv_name (save_path_ s) "edge_data_" t in
  save_edges t s =
    for_each (fun _ => save_edge (openable name) name) 0%nat (mid2eid (lanemap_ s))
             (open_file name (EdgeCsv []) s).2.
Proof.
  cbv zeta. unfold save_edges. unfold bind at 1. unfold gets at 1. unfold bind at 1.
  rewrite open_file_eq. cbn [snd]. unfold bind, gets. by destruct (openable _).
Qed.

Lemma save_agents_eq t s :
  let name := csv_name (save_path_ s) "agents_data_" t in
  save_agents t s =
    for_range (length (agents s)) 0%nat (save_agent (openable name) name)
              (open_file name (AgentCsv []) s).2.
Proof.
  cbv zeta. unfold save_agents. unfold bind at 1. unfold gets at 1. unfold bind at 1.
  rewrite open_file_eq. cbn [snd]. unfold bind, gets. by destruct (openable _).
Qed.

Lemma save_edges_frame t s :
  let s' := (save_edges t s).2 in
  network_ s' = network_ s /\ agents s' = agents s /\ lanemap_ s' = lanemap_ s /\
  save_path_ s' = save_path_ s /\ deltaTime_ s' = deltaTime_ s /\ gpu s' = gpu s /\
  log s' = log s ++ [FileOpen (csv_name (save_path_ s) "edge_data_" t)].
Proof.
  cbv zeta. rewrite save_edges_eq. cbv zeta.
  set (name := csv_name (save_path_ s) "edge_data_" t).
  pose proof (open_file_only_files name (EdgeCsv []) s) as Hopen.
  set (s1 := (open_file name (EdgeCsv []) s).2) in *.
  pose proof (writes_only_files_for_each (fun _ => save_edge (openable name) name)
                (mid2eid (lanemap_ s))
                (fun _ me => writes_only_files_save_edge _ _ me) 0%nat s1) as Hrest.
  destruct (only_files_differ_trans _ _ _ Hopen Hrest) as (-> & -> & -> & -> & -> & -> & ->).
  done.
Qed.

Lemma save_agents_frame t s :
  let s' := (save_agents t s).2 in
  network_ s' = network_ s /\ agents s' = agents s /\ lanemap_ s' = lanemap_ s /\
  save_path_ s' = save_path_ s /\ deltaTime_ s' = deltaTime_ s /\ gpu s' = gpu s /\
  log s' = log s ++ [FileOpen (csv_name (save_path_ s) "agents_data_" t)].
Proof.
  cbv zeta. rewrite save_agents_eq. cbv zeta.
  set (name := csv_name (save_path_ s) "agents_data_" t).
  pose proof (open_file_only_files name (AgentCsv []) s) as Hopen.
  set (s1 := (open_file name (AgentCsv []) s).2) in *.
  pose proof (writes_only_files_for_range (save_agent (openable name) name)
                (length (agents s))
                (fun i => writes_only_files_save_agent _ _ i) 0%nat s1) as Hrest.
  destruct (only_files_differ_trans _ _ _ Hopen Hrest) as (-> & -> & -> & -> & -> & -> & ->).
  done.
Qed.

(** C10.  Frame.  Whatever its outcome, a snapshot ([save_edges] followed
    by [save_agents]) leaves the agent population, the per-merged-edge
    aggregate records, both id maps and the network as they were. *)
Theorem snapshot_leaves_host_state s t :
  let s' := (snapshot t s).2 in
  agents s' = agents s /\
  edgesData (lanemap_ s') = edgesData (lanemap_ s) /\
  mid2eid (lanemap_ s') = mid2eid (lanemap_ s) /\
  eid2mid (lanemap_ s') = eid2mid (lanemap_ s) /\
  network_ s' = network_ s.
Proof.
  cbv zeta. unfold snapshot, bind.
  pose proof (save_edges_frame t s) as He. cbv zeta in He.
  destruct (save_edges t s) as [[[]| | |] s1]; simpl in He |- *;
    destruct He as (Hn & Ha & Hl & _).
  2-4: by rewrite Hn, Ha, Hl.
  pose proof (save_agents_frame t s1) as (Hn' & Ha' & Hl' & _).
  by rewrite Hn', Ha', Hl', Hn, Ha, Hl.
Qed.

Lemma save_edge_eq good name me s :
  save_edge good name me s =
    match at_index (edgesData (lanemap_ s)) me.1 with
    | Some ed =>
        (Returned tt,
         if good
         then with_files (alter (add_edge_row (edge_row (deltaTime_ s) me.2 ed)) name
                                (files s)) s
         else s)
    | None => (Threw out_of_range, s)
    end.
Proof.
  unfold save_edge, bind, gets, checked, write_row, modify, ret, throw.
  destruct (at_index _ _); [|done]. by destruct good.
Qed.

(** How the inner loop of [save_edges] ends. *)
Lemma save_edge_loop_outcome good name l :
  forall i s,
    (for_each (fun _ => save_edge good name) i l s).1 =
      if decide (Forall (fun me => is_Some (at_index (edgesData (lanemap_ s)) me.1)) l)
      then Returned tt else Threw out_of_range.
Proof.
  induction l as [|me l IH]; intros i s.
  - cbn. by rewrite decide_True by constructor.
  - cbn [for_each]. unfold bind. rewrite save_edge_eq.
    destruct (at_index (edgesData (lanemap_ s)) me.1) as [ed|] eqn:Hat.
    + rewrite IH.
      assert (Hlm : lanemap_ (if good
                then with_files (alter (add_edge_row (edge_row (deltaTime_ s) me.2 ed))
                                       name (files s)) s
                else s) = lanemap_ s) by by destruct good.
      rewrite Hlm.
      destruct (decide (Forall _ l)) as [Hall|Hnot].
      * rewrite decide_True; [done|]. constructor; [by eexists|done].
      * rewrite decide_False; [done|]. intros Hall. apply Hnot. by inversion Hall.
    + cbn. rewrite decide_False; [done|]. intros Hall.
      inversion Hall as [|?? [? Hs] ?]; subst. congruence.
Qed.

(** On a good stream the inner loop of [save_edges] appends the rows of
    [edge_rows]. *)
Lemma save_edge_loop name l :
  forall i s rows0,
    files s !! name = Some (EdgeCsv rows0) ->
    files (for_each (fun _ => save_edge true name) i l s).2 !! name
      = Some (EdgeCsv (rows0 ++ edge_rows (deltaTime_ s) (edgesData (lanemap_ s)) l)).
Proof.
  induction l as [|me l IH]; intros i s rows0 Hf.
  - cbn. by rewrite app_nil_r.
  - cbn [for_each edge_rows]. unfold bind. rewrite save_edge_eq.
    destruct (at_index (edgesData (lanemap_ s)) me.1) as [ed|] eqn:Hat.
    + set (s1 := with_files _ s).
      assert (Hf1 : files s1 !! name
                    = Some (EdgeCsv (rows0 ++ [edge_row (deltaTime_ s) me.2 ed]))).
      { subst s1. cbn [files with_files]. rewrite lookup_alter_eq, Hf. done. }
      rewrite (IH (S i) s1 _ Hf1).
      change (deltaTime_ s1) with (deltaTime_ s).
      change (lanemap_ s1) with (lanemap_ s).
      by rewrite <- app_assoc.
    + cbn. by rewrite app_nil_r.
Qed.

(** On a failed stream it changes nothing. *)
Lemma save_edge_loop_failed name l :
  forall i s, (for_each (fun _ => save_edge false name) i l s).2 = s.
Proof.
  induction l as [|me l IH]; intros i s; [done|].
  cbn [for_each]. unfold bind. rewrite save_edge_eq.
  destruct (at_index (edgesData (lanemap_ s)) me.1); [apply IH|done].
Qed.

Lemma ave_time_cases dt (ed : EdgeData Acc) :
  (downstream_veh_count ed = 0 -> ave_time dt ed = F32.of_Z (-1)) /\
  (0 < downstream_veh_count ed ->
   ave_time dt ed = F32.mul (steps_per_vehicle (period_cum_travel_steps ed)
                                               (downstream_veh_count ed)) dt).
Proof.
  unfold ave_time. split; intros Hk; case_bool_decide; (done || lia).
Qed.

Lemma edge_rows_spec dt (eds : list (EdgeData Acc)) l :
  Forall (fun row =>
    exists mid ed,
      (mid, er_eid row) ∈ l /\ at_index eds mid = Some ed /\
      row = edge_row dt (er_eid row) ed) (edge_rows dt eds l).
Proof.
  induction l as [|[mid eid] l IH]; cbn [edge_rows]; [constructor|].
  cbn [fst snd]. destruct (at_index eds mid) as [ed|] eqn:Hat; [|constructor].
  constructor.
  - exists mid, ed. split; [left|done].
  - eapply Forall_impl; [exact IH|]. intros row (m & e & Hin & ? & ?).
    exists m, e. split; [by right|done].
Qed.

Lemma edge_rows_length dt (eds : list (EdgeData Acc)) l :
  Forall (fun me => is_Some (at_index eds me.1)) l ->
  length (edge_rows dt eds l) = length l.
Proof.
  induction 1 as [|me l [ed Hed] _ IH]; [done|].
  cbn [edge_rows]. rewrite Hed. cbn. by rewrite IH.
Qed.

(** What [save_edges] leaves behind, for whatever type the accumulator of
    travel steps has. *)
Lemma save_edges_rows s t :
  let r := save_edges t s in
  let name := csv_name (save_path_ s) "edge_data_" t in
  let dt := deltaTime_ s in
  let eds := edgesData (lanemap_ s) in
  let rows := edge_rows dt eds (mid2eid (lanemap_ s)) in
  files r.2 !! name = (if openable name then Some (EdgeCsv rows) else files s !! name) /\
  Forall (fun row =>
    exists mid ed,
      (mid, er_eid row) ∈ mid2eid (lanemap_ s) /\
      at_index eds mid = Some ed /\
      er_downstream_count row = downstream_veh_count ed /\
      er_average_travel_time row = ave_time dt ed) rows /\
  (Forall (fun me => is_Some (at_index eds me.1)) (mid2eid (lanemap_ s)) ->
   r.1 = Returned tt /\ length rows = length (mid2eid (lanemap_ s))).
Proof.
  cbv zeta. rewrite save_edges_eq. cbv zeta.
  set (name := csv_name (save_path_ s) "edge_data_" t).
  rewrite open_file_eq. cbn [snd].
  split; [|split].
  - destruct (openable name).
    + set (s1 := with_files _ _).
      assert (Hf1 : files s1 !! name = Some (EdgeCsv [])) by apply lookup_insert_eq.
      by rewrite (save_edge_loop name (mid2eid (lanemap_ s)) 0%nat s1 [] Hf1).
    + by rewrite save_edge_loop_failed.
  - eapply Forall_impl; [apply edge_rows_spec|].
    intros row (mid & ed & Hin & Hat & Hrow). exists mid, ed.
    split; [done|]. split; [done|]. by rewrite Hrow.
  - intros Hall. split; [|by apply edge_rows_length].
    rewrite save_edge_loop_outcome.
    assert (Hlm : lanemap_ (if openable name
              then with_files (<[name:=EdgeCsv []]> (files s))
                     (with_log (log s ++ [FileOpen name]) s)
              else with_log (log s ++ [FileOpen name]) s) = lanemap_ s)
      by by destruct (openable name).
    rewrite Hlm. by rewrite decide_True.
Qed.

Lemma of_Z_zero : F32.of_Z 0 = S754_zero false.
Proof. reflexivity. Qed.

(** With [num_steps == 0] the quotient is a NaN or an infinity. *)
Lemma ave_speed_zero_steps dt i a :
  num_steps a = 0 ->
  F32.is_finite (ar_ave_speed (agent_row dt i a)) = false.
Proof.
  intros Hz. cbn. rewrite Hz, of_Z_zero. by destruct (cum_v a) as [[]|[]| |[]].
Qed.
Lemma save_edges_outcome t s :
  (save_edges t s).1 =
    if decide (Forall (fun me => is_Some (at_index (edgesData (lanemap_ s)) me.1))
                      (mid2eid (lanemap_ s)))
    then Returned tt else Threw out_of_range.
Proof.
  rewrite save_edges_eq. cbv zeta. rewrite save_edge_loop_outcome.
  rewrite open_file_eq. cbn [snd]. by destruct (openable _).
Qed.

Lemma save_agent_eq good name i s :
  save_agent good name i s =
    match agents s !! i with
    | Some agent =>
        (Returned tt,
         if good
         then with_files (alter (add_agent_row (agent_row (deltaTime_ s) i agent)) name
                                (files s)) s
         else s)
    | None => (Threw out_of_range, s)
    end.
Proof.
  unfold save_agent, bind, gets, checked, write_row, modify, ret, throw.
  destruct (agents s !! i); [|done]. by destruct good.
Qed.

(** On a good stream the loop of [save_agents] appends one row per agent
    and comes to its end. *)
Lemma save_agent_loop name n :
  forall j s rows0,
    (j + n = length (agents s))%nat ->
    files s !! name = Some (AgentCsv rows0) ->
    (for_range n j (save_agent true name) s).1 = Returned tt /\
    files (for_range n j (save_agent true name) s).2 !! name
      = Some (AgentCsv (rows0 ++ agent_rows (deltaTime_ s) j (drop j (agents s)))).
Proof.
  induction n as [|n IH]; intros j s rows0 Hlen Hf.
  - cbn. rewrite drop_ge by lia. cbn. by rewrite app_nil_r.
  - cbn [for_range]. unfold bind. rewrite save_agent_eq.
    destruct (lookup_lt_is_Some_2 (agents s) j) as [agent Hag]; [lia|].
    rewrite Hag. set (s1 := with_files _ s).
    assert (Hf1 : files s1 !! name
                  = Some (AgentCsv (rows0 ++ [agent_row (deltaTime_ s) j agent]))).
    { subst s1. cbn [files with_files]. rewrite lookup_alter_eq, Hf. done. }
    destruct (IH (S j) s1 _ ltac:(cbn; lia) Hf1) as [IH1 IH2].
    change (deltaTime_ s1) with (deltaTime_ s) in *.
    change (agents s1) with (agents s) in *.
    split; [done|]. rewrite IH2, (drop_S _ _ _ Hag). cbn [agent_rows].
    by rewrite <- app_assoc.
Qed.

(** On a failed stream it comes to its end all the same and changes
    nothing. *)
Lemma save_agent_loop_failed name n :
  forall j s,
    (j + n = length (agents s))%nat ->
    for_range n j (save_agent false name) s = (Returned tt, s).
Proof.
  induction n as [|n IH]; intros j s Hlen; [done|].
  cbn [for_range]. unfold bind. rewrite save_agent_eq.
  destruct (lookup_lt_is_Some_2 (agents s) j) as [agent Hag]; [lia|].
  rewrite Hag. apply IH. lia.
Qed.

Lemma save_agents_returns t s : (save_agents t s).1 = Returned tt.
Proof.
  rewrite save_agents_eq. cbv zeta. rewrite open_file_eq. cbn [snd].
  destruct (openable _).
  - set (s1 := with_files _ _).
    by destruct (save_agent_loop (csv_name (save_path_ s) "agents_data_" t)
                   (length (agents s)) 0%nat s1 [] eq_refl (lookup_insert_eq _ _ _)).
  - by rewrite save_agent_loop_failed.
Qed.

End SnapshotProofs.

(** C5.  After [save_edges], the edge file (when it could be opened) holds
    the rows of [edge_rows].  Every row is the record of an entry of
    [mid2eid] and of the aggregate record [ed] stored at that [mid]; when
    the downstream vehicle count of [ed] is 0 the average travel time of
    the row is the sentinel [-1], and when it is [k > 0] with accumulator
    [s] the field is [(s / k) * deltaTime_]: with an integral accumulator
    the quotient is the truncating integer division, converted to float,
    and with a float accumulator it is the float division by the count.
    When every [mid] of the map is an index of [edgesData] the call returns
    with one row per entry. *)
Theorem average_travel_time_field :
  (forall `{!Cuda Z} `{!FileSystem} (s : TrafficSimulator Z) t,
     let r := save_edges t s in
     let name := csv_name (save_path_ s) "edge_data_" t in
     let dt := deltaTime_ s in
     let eds := edgesData (lanemap_ s) in
     let rows := edge_rows dt eds (mid2eid (lanemap_ s)) in
     files r.2 !! name = (if openable name then Some (EdgeCsv rows) else files s !! name) /\
     Forall (fun row =>
       exists mid ed,
         (mid, er_eid row) ∈ mid2eid (lanemap_ s) /\
         at_index eds mid = Some ed /\
         er_downstream_count row = downstream_veh_count ed /\
         (downstream_veh_count ed = 0 ->
          er_average_travel_time row = F32.of_Z (-1)) /\
         (0 < downstream_veh_count ed ->
          er_average_travel_time row
            = F32.mul (F32.of_Z (Z.quot (period_cum_travel_steps ed)
                                        (downstream_veh_count ed))) dt)) rows /\
     (Forall (fun me => is_Some (at_index eds me.1)) (mid2eid (lanemap_ s)) ->
      r.1 = Returned tt /\ length rows = length (mid2eid (lanemap_ s)))) /\
  (forall `{!Cuda F32.t} `{!FileSystem} (s : TrafficSimulator F32.t) t,
     let r := save_edges t s in
     let name := csv_name (save_path_ s) "edge_data_" t in
     let dt := deltaTime_ s in
     let eds := edgesData (lanemap_ s) in
     let rows := edge_rows dt eds (mid2eid (lanemap_ s)) in
     files r.2 !! name = (if openable name then Some (EdgeCsv rows) else files s !! name) /\
     Forall (fun row =>
       exists mid ed,
         (mid, er_eid row) ∈ mid2eid (lanemap_ s) /\
         at_index eds mid = Some ed /\
         er_downstream_count row = downstream_veh_count ed /\
         (downstream_veh_count ed = 0 ->
          er_average_travel_time row = F32.of_Z (-1)) /\
         (0 < downstream_veh_count ed ->
          er_average_travel_time row
            = F32.mul (F32.div (period_cum_travel_steps ed)
                               (F32.of_Z (downstream_veh_count ed))) dt)) rows /\
     (Forall (fun me => is_Some (at_index eds me.1)) (mid2eid (lanemap_ s)) ->
      r.1 = Returned tt /\ length rows = length (mid2eid (lanemap_ s)))).
Proof.
  split; intros C F s t; cbv zeta;
    destruct (save_edges_rows s t) as (Hfile & Hrows & Hret);
    (split; [exact Hfile|]); (split; [|exact Hret]);
    (eapply Forall_impl; [exact Hrows|]);
    intros row (mid & ed & Hin & Hat & Hcount & Have); exists mid, ed;
    (split; [done|]); (split; [done|]); (split; [done|]);
    rewrite Have; exact (ave_time_cases (deltaTime_ s) ed).
Qed.

(** ** The stepping loop *)

Section LoopProofs.
Context {Acc : Type} `{!TravelSteps Acc} `{!Cuda Acc} `{!Accessibility} {fs : FileSystem}.
Implicit Types (s : TrafficSimulator Acc) (a : Agent).

Lemma do_cuda_simulate_eq t nb s dev :
  gpu s = Some dev ->
  do_cuda_simulate t nb s =
    (Returned tt,
     with_gpu (Some (cuda_simulate t (length (agents s))
                       (length (intersections (lanemap_ s))) (deltaTime_ s) nb dev))
              (with_log (log s ++ [CallCudaSimulate t nb]) s)).
Proof.
  intros Hg. unfold do_cuda_simulate, bind, gets, emit, modify, unchecked, ret.
  cbn. rewrite Hg. done.
Qed.

Lemma checkpoint_returned t s s' :
  checkpoint t s = (Returned tt, s') -> is_Some (gpu s) ->
  log s' = log s ++ checkpoint_events (save_path_ s) t /\
  save_path_ s' = save_path_ s /\ deltaTime_ s' = deltaTime_ s /\ gpu s' = gpu s.
Proof.
  intros Hrun [dev Hg]. unfold checkpoint in Hrun.
  unfold bind at 1 in Hrun.
  assert (Hget : do_cuda_get_data s =
    (Returned tt,
     with_agents (cuda_get_data dev).1.1
       (with_lanemap (mkLanemap (eid2mid (lanemap_ s)) (mid2eid (lanemap_ s))
                        (cuda_get_data dev).1.2 (lanemap_array (lanemap_ s))
                        (cuda_get_data dev).2)
          (with_log (log s ++ [CallCudaGetData]) s)))).
  { unfold do_cuda_get_data, bind, gets, emit, modify, unchecked, ret.
    cbn. rewrite Hg. done. }
  rewrite Hget in Hrun. set (s1 := with_agents _ _) in Hrun.
  unfold bind at 1 in Hrun. unfold checkpoint_events.
  destruct (F32.to_int t) as [ti|]; cbn [unchecked] in Hrun; [|done].
  unfold ret at 1 in Hrun. unfold bind at 1 in Hrun.
  pose proof (save_edges_frame ti s1) as He. cbv zeta in He.
  destruct (save_edges ti s1) as [[[]| | |] s2]; try done.
  unfold bind at 1 in Hrun. unfold ret at 1 in Hrun.
  pose proof (save_agents_frame ti s2) as Ha. cbv zeta in Ha.
  rewrite Hrun in Ha. cbn [snd] in He, Ha.
  destruct He as (_ & _ & _ & Hsp & Hdt & Hgpu & Hlog).
  destruct Ha as (_ & _ & _ & Hsp' & Hdt' & Hgpu' & Hlog').
  rewrite Hlog', Hlog, Hsp', Hsp, Hdt', Hdt, Hgpu', Hgpu.
  subst s1. cbn. by rewrite <- !app_assoc.
Qed.

Lemma loop_body_returned K nb t c s ts s' :
  loop_body K nb t c s = (Returned ts, s') -> is_Some (gpu s) ->
  ts = (F32.add t (deltaTime_ s), (c + 1) mod UINT_MOD) /\
  log s' = log s ++ CallCudaSimulate t nb ::
             (if bool_decide (umod ((c + 1) mod UINT_MOD) K = Some 0)
              then checkpoint_events (save_path_ s) (F32.add t (deltaTime_ s))
              else []) /\
  save_path_ s' = save_path_ s /\ deltaTime_ s' = deltaTime_ s /\ is_Some (gpu s').
Proof.
  intros Hrun [dev Hg]. unfold loop_body in Hrun. unfold bind at 1 in Hrun.
  rewrite (do_cuda_simulate_eq _ _ _ _ Hg) in Hrun.
  set (s1 := with_gpu _ _) in Hrun.
  unfold bind at 1 in Hrun. unfold gets at 1 in Hrun.
  unfold bind at 1 in Hrun.
  change (deltaTime_ s1) with (deltaTime_ s) in Hrun.
  destruct (umod ((c + 1) mod UINT_MOD) K) as [r|]; cbn [unchecked] in Hrun; [|done].
  unfold ret at 1 in Hrun. unfold bind at 1 in Hrun.
  destruct (decide (r = 0)) as [->|Hr].
  - rewrite bool_decide_eq_true_2 in Hrun by done.
    rewrite bool_decide_eq_true_2 by done.
    destruct (checkpoint _ s1) as [[[]| | |] s2] eqn:Hcp; try done.
    injection Hrun as <- <-.
    apply checkpoint_returned in Hcp as (Hlog & Hsp & Hdt & Hgpu); [|by eexists].
    rewrite Hlog, Hsp, Hdt, Hgpu. subst s1. cbn.
    split; [done|]. split; [by rewrite <- app_assoc|]. split; [done|]. split; [done|].
    by eexists.
  - rewrite bool_decide_eq_false_2 in Hrun by done.
    rewrite bool_decide_eq_false_2 by congruence.
    injection Hrun as <- <-. subst s1. cbn.
    split; [done|]. split; [done|]. split; [done|]. split; [done|]. by eexists.
Qed.

Lemma counter_succ n :
  (Z.of_nat n mod UINT_MOD + 1) mod UINT_MOD = Z.of_nat (S n) mod UINT_MOD.
Proof.
  rewrite Nat2Z.inj_succ. unfold Z.succ.
  rewrite Zplus_mod_idemp_l. done.
Qed.

Lemma main_loop_returned K nb tE fuel :
  forall t n s s',
    main_loop fuel K nb tE t (Z.of_nat n mod UINT_MOD) s = (Returned tt, s') ->
    is_Some (gpu s) ->
    exists N,
      log s' = log s ++ loop_events (save_path_ s) (deltaTime_ s) K nb t n N /\
      save_path_ s' = save_path_ s /\ deltaTime_ s' = deltaTime_ s /\
      is_Some (gpu s') /\ (N <= fuel)%nat /\
      F32.ltb (Nat.iter N (fun x => F32.add x (deltaTime_ s)) t) tE = false /\
      forall k, (k < N)%nat ->
        F32.ltb (Nat.iter k (fun x => F32.add x (deltaTime_ s)) t) tE = true.
Proof.
  induction fuel as [|fuel IH]; intros t n s s' Hrun Hg.
  - cbn [main_loop] in Hrun. destruct (F32.ltb t tE) eqn:Hlt; [done|].
    injection Hrun as <-. exists 0%nat. cbn. rewrite app_nil_r.
    repeat split; try done; intros; lia.
  - cbn [main_loop] in Hrun. destruct (F32.ltb t tE) eqn:Hlt.
    + unfold bind at 1 in Hrun.
      destruct (loop_body _ _ _ _ s) as [[ts| | |] s1] eqn:Hbody; try done.
      apply loop_body_returned in Hbody as (-> & Hlog & Hsp & Hdt & Hg1); [|done].
      cbn [fst snd] in Hrun. rewrite counter_succ in Hrun, Hlog.
      destruct (IH _ _ _ _ Hrun Hg1) as (N & Hlog' & Hsp' & Hdt' & Hg' & HN & Hend & Hbefore).
      rewrite Hdt, Hsp in *.
      exists (S N). split.
      { rewrite Hlog', Hlog. cbn [loop_events]. unfold iteration_events, checkpoint_due.
        by rewrite <- app_assoc. }
      split; [congruence|]. split; [congruence|]. split; [done|]. split; [lia|].
      rewrite Nat.iter_succ_r. split; [done|].
      intros [|k] Hk; [done|]. rewrite Nat.iter_succ_r. apply Hbefore. lia.
    + injection Hrun as <-. exists 0%nat. cbn. rewrite app_nil_r.
      repeat split; try done; intros; lia.
Qed.

Lemma do_init_cuda_eq s :
  do_init_cuda s =
    (Returned tt,
     with_gpu (Some (init_cuda (agents s) (edgesData (lanemap_ s))
                       (lanemap_array (lanemap_ s)) (intersections (lanemap_ s))))
              (with_log (log s ++ [CallInitCuda]) s)).
Proof. reflexivity. Qed.

Lemma simulateInGPU_returned fuel t0 tE si s s' :
  simulateInGPU fuel t0 tE si s = (Returned tt, s') ->
  exists nb K N,
    numBlocks_of (length (agents s)) = Some nb /\
    num_save_steps_of si (deltaTime_ s) = Some K /\
    log s' = log s ++ [CallInitCuda]
               ++ loop_events (save_path_ s) (deltaTime_ s) K nb t0 0 N
               ++ [CallFinishCuda] /\
    (N <= fuel)%nat /\
    F32.ltb (Nat.iter N (fun x => F32.add x (deltaTime_ s)) t0) tE = false /\
    forall k, (k < N)%nat ->
      F32.ltb (Nat.iter k (fun x => F32.add x (deltaTime_ s)) t0) tE = true.
Proof.
  intros Hrun. unfold simulateInGPU in Hrun. unfold bind at 1 in Hrun.
  rewrite do_init_cuda_eq in Hrun. set (s1 := with_gpu _ _) in Hrun.
  unfold bind at 1 in Hrun. unfold gets at 1 in Hrun. unfold bind at 1 in Hrun.
  change (agents s1) with (agents s) in Hrun.
  destruct (numBlocks_of (length (agents s))) as [nb|]; cbn [unchecked] in Hrun; [|done].
  unfold ret at 1 in Hrun. unfold bind at 1 in Hrun. unfold gets at 1 in Hrun.
  unfold bind at 1 in Hrun. change (deltaTime_ s1) with (deltaTime_ s) in Hrun.
  destruct (num_save_steps_of si (deltaTime_ s)) as [K|]; cbn [unchecked] in Hrun; [|done].
  unfold ret at 1 in Hrun. unfold bind at 1 in Hrun.
  destruct (main_loop _ _ _ _ _ _ s1) as [[[]| | |] s2] eqn:Hloop; try done.
  change 0 with (Z.of_nat 0 mod UINT_MOD) in Hloop.
  apply main_loop_returned in Hloop
    as (N & Hlog & _ & _ & _ & HN & Hend & Hbefore); [|by eexists].
  injection Hrun as <-. exists nb, K, N.
  split; [done|]. split; [done|]. split; [|done].
  cbn. rewrite Hlog. subst s1. cbn. by rewrite <- !app_assoc.
Qed.

Lemma checkpoint_due_iff K n :
  1 <= K < UINT_MOD ->
  checkpoint_due K n = true <-> (Z.of_nat n mod UINT_MOD) mod K = 0.
Proof.
  intros HK. unfold checkpoint_due, umod.
  rewrite (Z.mod_small K) by lia.
  rewrite (bool_decide_eq_false_2 (K = 0)) by lia.
  rewrite bool_decide_eq_true. split; [by intros [= ->] | by intros ->].
Qed.

Lemma checkpoints_app tr1 tr2 :
  checkpoints (tr1 ++ tr2) = (checkpoints tr1 + checkpoints tr2)%nat.
Proof. unfold checkpoints. by rewrite filter_app, length_app. Qed.

Lemma checkpoints_checkpoint_events sp t : checkpoints (checkpoint_events sp t) = 1%nat.
Proof. unfold checkpoint_events. by destruct (F32.to_int t). Qed.

Lemma checkpoints_iteration sp dt K nb t n :
  checkpoints (iteration_events sp dt K nb t n)
    = if checkpoint_due K n then 1%nat else 0%nat.
Proof.
  unfold iteration_events.
  change (CallCudaSimulate t nb :: ?l) with ([CallCudaSimulate t nb] ++ l).
  rewrite checkpoints_app.
  destruct (checkpoint_due K n); [|done].
  by rewrite checkpoints_checkpoint_events.
Qed.

Lemma div_succ_multiple K m :
  1 <= K -> 0 <= m ->
  (m + 1) / K = m / K + (if bool_decide ((m + 1) mod K = 0) then 1 else 0).
Proof.
  intros HK Hm.
  pose proof (Z.div_mod (m + 1) K ltac:(lia)) as E1.
  pose proof (Z.mod_pos_bound (m + 1) K ltac:(lia)) as B1.
  case_bool_decide as Hr.
  - rewrite Hr in E1.
    pose proof (Z.div_unique m K ((m + 1) / K - 1) (K - 1)) as Hu. lia.
  - pose proof (Z.div_unique m K ((m + 1) / K) ((m + 1) mod K - 1)) as Hu. lia.
Qed.

Lemma checkpoints_loop_events sp dt K nb N :
  1 <= K < UINT_MOD ->
  forall t n0,
    Z.of_nat n0 + Z.of_nat N < UINT_MOD ->
    Z.of_nat (checkpoints (loop_events sp dt K nb t n0 N))
      = (Z.of_nat n0 + Z.of_nat N) / K - Z.of_nat n0 / K.
Proof.
  intros HK. induction N as [|N IH]; intros t n0 Hlt.
  - cbn. rewrite Z.add_0_r. lia.
  - cbn [loop_events]. rewrite checkpoints_app, checkpoints_iteration.
    rewrite Nat2Z.inj_add, IH by lia.
    replace (Z.of_nat (S n0) + Z.of_nat N) with (Z.of_nat n0 + Z.of_nat (S N)) by lia.
    replace (Z.of_nat (S n0)) with (Z.of_nat n0 + 1) by lia.
    rewrite (div_succ_multiple K (Z.of_nat n0)) by lia.
    destruct (checkpoint_due K (S n0)) eqn:Hdue.
    + apply checkpoint_due_iff in Hdue; [|done].
      rewrite (Z.mod_small (Z.of_nat (S n0)) UINT_MOD) in Hdue by lia.
      replace (Z.of_nat (S n0)) with (Z.of_nat n0 + 1) in Hdue by lia.
      rewrite bool_decide_eq_true_2 by done. lia.
    + case_bool_decide as Hm; [|lia].
      exfalso. apply not_true_iff_false in Hdue. apply Hdue.
      apply checkpoint_due_iff; [done|].
      rewrite (Z.mod_small (Z.of_nat (S n0)) UINT_MOD) by lia.
      by replace (Z.of_nat (S n0)) with (Z.of_nat n0 + 1) by lia.
Qed.

Lemma to_int_bounds x z : F32.to_int x = Some z -> F32.INT_MIN <= z <= F32.INT_MAX.
Proof.
  unfold F32.to_int. destruct (F32.trunc x); [|done].
  case_bool_decide; [|done]. by intros [= <-].
Qed.

Lemma simulateInGPU_eq fuel t0 tE si s :
  let s1 := with_gpu (Some (init_cuda (agents s) (edgesData (lanemap_ s))
                              (lanemap_array (lanemap_ s)) (intersections (lanemap_ s))))
                     (with_log (log s ++ [CallInitCuda]) s) in
  simulateInGPU fuel t0 tE si s =
    match numBlocks_of (length (agents s)) with
    | None => (Undefined FloatToInt, s1)
    | Some nb =>
        match num_save_steps_of si (deltaTime_ s) with
        | None => (Undefined FloatToInt, s1)
        | Some K => bind (main_loop fuel K nb tE t0 0) (fun _ => do_finish_cuda) s1
        end
    end.
Proof.
  cbv zeta. unfold simulateInGPU. unfold bind at 1. rewrite do_init_cuda_eq.
  unfold bind at 1. unfold gets at 1. unfold bind at 1. cbn [agents with_gpu with_log].
  destruct (numBlocks_of _); cbn [unchecked]; [|done].
  unfold ret at 1. unfold bind at 1. unfold gets at 1. unfold bind at 1.
  cbn [deltaTime_ with_gpu with_log].
  by destruct (num_save_steps_of _ _).
Qed.

(** C7, as amended.  A zero checkpoint interval is not looked at before
    the device is initialised: whatever happens next, the first effect of
    the run is the device init call.  When the start time is not below the
    end time the run then returns normally, device init and device finish
    being its only effects. *)
Theorem zero_interval_not_rejected fuel t0 tE si s :
  num_save_steps_of si (deltaTime_ s) = Some 0 ->
  let r := simulateInGPU fuel t0 tE si s in
  (exists tr, log r.2 = log s ++ CallInitCuda :: tr) /\
  (F32.ltb t0 tE = false ->
   is_Some (numBlocks_of (length (agents s))) ->
   r.1 = Returned tt /\ log r.2 = log s ++ [CallInitCuda; CallFinishCuda]).
Proof.
  intros HK. cbv zeta. rewrite simulateInGPU_eq. cbv zeta. rewrite HK.
  set (s1 := with_gpu _ _).
  destruct (numBlocks_of (length (agents s))) as [nb|].
  - destruct (F32.ltb t0 tE) eqn:Hlt.
    + split; [|done]. unfold bind at 1.
      destruct fuel as [|fuel]; cbn [main_loop]; rewrite Hlt.
      * by exists [].
      * unfold bind at 1. unfold loop_body. unfold bind at 1.
        rewrite (do_cuda_simulate_eq _ _ s1 _ eq_refl).
        unfold bind, gets. cbn. eexists. by rewrite <- app_assoc.
    + assert (Hloop : main_loop fuel 0 nb tE t0 0 s1 = (Returned tt, s1)).
      { destruct fuel; cbn [main_loop]; by rewrite Hlt. }
      unfold bind. rewrite Hloop. cbn. split.
      * eexists. by rewrite <- app_assoc.
      * intros _ _. by rewrite <- app_assoc.
  - split; [by exists []|]. by intros _ [? ?].
Qed.

Lemma do_cuda_get_data_eq s dev :
  gpu s = Some dev ->
  do_cuda_get_data s =
    (Returned tt,
     with_agents (cuda_get_data dev).1.1
       (with_lanemap (mkLanemap (eid2mid (lanemap_ s)) (mid2eid (lanemap_ s))
                        (cuda_get_data dev).1.2 (lanemap_array (lanemap_ s))
                        (cuda_get_data dev).2)
          (with_log (log s ++ [CallCudaGetData]) s))).
Proof.
  intros Hg. unfold do_cuda_get_data, bind, gets, emit, modify, unchecked, ret.
  cbn. rewrite Hg. done.
Qed.

(** A checkpoint comes to its end when the clock converts to [int] and
    the edge data handed back by the device covers [mid2eid]. *)
Lemma checkpoint_returns t s dev ti :
  gpu s = Some dev ->
  F32.to_int t = Some ti ->
  Forall (fun me => is_Some (at_index (cuda_get_data dev).1.2 me.1)) (mid2eid (lanemap_ s)) ->
  exists s',
    checkpoint t s = (Returned tt, s') /\
    gpu s' = Some dev /\ mid2eid (lanemap_ s') = mid2eid (lanemap_ s) /\
    deltaTime_ s' = deltaTime_ s.
Proof.
  intros Hg Hti Hvalid. unfold checkpoint. unfold bind at 1.
  rewrite (do_cuda_get_data_eq s dev Hg). set (s1 := with_agents _ _).
  unfold bind at 1. rewrite Hti. cbn [unchecked]. unfold ret at 1. unfold bind at 1.
  pose proof (save_edges_outcome ti s1) as Hout.
  rewrite decide_True in Hout by exact Hvalid.
  pose proof (save_edges_frame ti s1) as He. cbv zeta in He.
  destruct (save_edges ti s1) as [o2 s2]. cbn [fst snd] in Hout, He. subst o2.
  unfold bind at 1. unfold ret at 1.
  pose proof (save_agents_returns ti s2) as Hout'.
  pose proof (save_agents_frame ti s2) as Ha. cbv zeta in Ha.
  destruct (save_agents ti s2) as [o3 s3]. cbn [fst snd] in Hout', Ha. subst o3.
  exists s3. split; [done|].
  destruct He as (_ & _ & Hlm & _ & Hdt & Hgpu & _).
  destruct Ha as (_ & _ & Hlm' & _ & Hdt' & Hgpu' & _).
  rewrite Hgpu', Hgpu, Hlm', Hlm, Hdt', Hdt. subst s1. by cbn.
Qed.

(** One iteration comes to its end under the same conditions. *)
Lemma loop_body_returns K nb t c s dev :
  1 <= K < UINT_MOD ->
  gpu s = Some dev ->
  let dev' := cuda_simulate t (length (agents s)) (length (intersections (lanemap_ s)))
                            (deltaTime_ s) nb dev in
  (umod ((c + 1) mod UINT_MOD) K = Some 0 ->
   is_Some (F32.to_int (F32.add t (deltaTime_ s))) /\
   Forall (fun me => is_Some (at_index (cuda_get_data dev').1.2 me.1))
          (mid2eid (lanemap_ s))) ->
  exists s',
    loop_body K nb t c s
      = (Returned (F32.add t (deltaTime_ s), (c + 1) mod UINT_MOD), s') /\
    gpu s' = Some dev' /\ mid2eid (lanemap_ s') = mid2eid (lanemap_ s) /\
    deltaTime_ s' = deltaTime_ s.
Proof.
  intros HK Hg dev' Hdue. unfold loop_body. unfold bind at 1.
  rewrite (do_cuda_simulate_eq _ _ _ _ Hg). fold dev'.
  set (s1 := with_gpu _ _).
  unfold bind at 1. unfold gets at 1. unfold bind at 1.
  change (deltaTime_ s1) with (deltaTime_ s).
  assert (Hmod : umod ((c + 1) mod UINT_MOD) K = Some (((c + 1) mod UINT_MOD) mod K)).
  { unfold umod. rewrite (Z.mod_small K UINT_MOD) by lia.
    by rewrite (bool_decide_eq_false_2 (K = 0)) by lia. }
  rewrite Hmod in Hdue |- *. cbn [unchecked]. unfold ret at 1. unfold bind at 1.
  destruct (decide (((c + 1) mod UINT_MOD) mod K = 0)) as [Hr|Hr].
  - rewrite bool_decide_eq_true_2 by done.
    destruct Hdue as [[ti Hti] Hvalid]; [by rewrite Hr|].
    destruct (checkpoint_returns (F32.add t (deltaTime_ s)) s1 dev' ti eq_refl Hti Hvalid)
      as (s2 & Hcp & Hgpu & Hm & Hdt).
    rewrite Hcp. exists s2. by cbn.
  - rewrite bool_decide_eq_false_2 by done. exists s1. by cbn.
Qed.

(** The loop comes to its end after [N] iterations when the clock leaves
    the interval after [N] additions, the fuel covers them, the clock
    converts to [int] wherever a checkpoint is due, and the device keeps
    handing back edge data that covers [mid2eid]. *)
Lemma main_loop_returns K nb tE dt (m2e : list (Z * Z)) (Inv : device -> Prop) :
  1 <= K < UINT_MOD ->
  (forall t n m d b dev, Inv dev -> Inv (cuda_simulate t n m d b dev)) ->
  (forall dev, Inv dev ->
     Forall (fun me => is_Some (at_index (cuda_get_data dev).1.2 me.1)) m2e) ->
  forall N fuel t n0 s dev,
    (N <= fuel)%nat ->
    gpu s = Some dev -> Inv dev ->
    mid2eid (lanemap_ s) = m2e -> deltaTime_ s = dt ->
    (forall k, (k < N)%nat -> F32.ltb (Nat.iter k (fun x => F32.add x dt) t) tE = true) ->
    F32.ltb (Nat.iter N (fun x => F32.add x dt) t) tE = false ->
    (forall k, (k < N)%nat -> checkpoint_due K (S (n0 + k)) = true ->
       is_Some (F32.to_int (Nat.iter (S k) (fun x => F32.add x dt) t))) ->
    exists s', main_loop fuel K nb tE t (Z.of_nat n0 mod UINT_MOD) s = (Returned tt, s').
Proof.
  intros HK Hstep Hvalid.
  induction N as [|N IH]; intros fuel t n0 s dev Hfuel Hg Hinv Hm Hdt Hbefore Hend Hconv.
  - cbn in Hend. exists s. destruct fuel; cbn [main_loop]; by rewrite Hend.
  - destruct fuel as [|fuel]; [lia|]. cbn [main_loop].
    pose proof (Hbefore 0%nat ltac:(lia)) as Hlt. cbn [Nat.iter nat_rect] in Hlt.
    rewrite Hlt. unfold bind at 1.
    set (dev' := cuda_simulate t (length (agents s)) (length (intersections (lanemap_ s)))
                               (deltaTime_ s) nb dev).
    destruct (loop_body_returns K nb t (Z.of_nat n0 mod UINT_MOD) s dev HK Hg)
      as (s1 & Hbody & Hg1 & Hm1 & Hdt1).
    { rewrite counter_succ. intros Hdue. split.
      - rewrite Hdt. apply (Hconv 0%nat ltac:(lia)).
        rewrite Nat.add_0_r. unfold checkpoint_due. by apply bool_decide_eq_true_2.
      - rewrite Hm. apply Hvalid, Hstep, Hinv. }
    rewrite Hbody. cbn [fst snd]. rewrite counter_succ, Hdt.
    apply (IH fuel (F32.add t dt) (S n0) s1 dev').
    + lia.
    + exact Hg1.
    + apply Hstep, Hinv.
    + congruence.
    + congruence.
    + intros k Hk. pose proof (Hbefore (S k) ltac:(lia)) as Hb.
      by rewrite Nat.iter_succ_r in Hb.
    + by rewrite Nat.iter_succ_r in Hend.
    + intros k Hk Hdue. pose proof (Hconv (S k) ltac:(lia)) as Hc.
      rewrite Nat.iter_succ_r in Hc. apply Hc.
      by replace (S (n0 + S k)) with (S (S n0 + k)) by lia.
Qed.

Lemma clock_steps_unique (f : F32.t -> F32.t) t tE N N' :
  (forall k, (k < N)%nat -> F32.ltb (Nat.iter k f t) tE = true) ->
  F32.ltb (Nat.iter N f t) tE = false ->
  (forall k, (k < N')%nat -> F32.ltb (Nat.iter k f t) tE = true) ->
  F32.ltb (Nat.iter N' f t) tE = false ->
  N' = N.
Proof.
  intros Hb He Hb' He'.
  destruct (Nat.lt_trichotomy N' N) as [Hlt|[->|Hlt]]; [|done|].
  - rewrite (Hb N' Hlt) in He'. done.
  - rewrite (Hb' N Hlt) in He. done.
Qed.


(** What a returning run with a checkpoint interval of [K >= 1] steps has
    done. *)
Lemma returned_run_checkpoints fuel t0 tE si s s' K :
  simulateInGPU fuel t0 tE si s = (Returned tt, s') ->
  num_save_steps_of si (deltaTime_ s) = Some K ->
  1 <= K ->
  exists nb N,
    let sp := save_path_ s in
    let dt := deltaTime_ s in
    log s' = log s ++ [CallInitCuda] ++ loop_events sp dt K nb t0 0 N
               ++ [CallFinishCuda] /\
    (forall t n, CallCudaGetData ∈ iteration_events sp dt K nb t n
                 <-> (Z.of_nat n mod UINT_MOD) mod K = 0) /\
    (forall t n ti,
       (Z.of_nat n mod UINT_MOD) mod K = 0 ->
       F32.to_int (F32.add t dt) = Some ti ->
       iteration_events sp dt K nb t n
         = [CallCudaSimulate t nb; CallCudaGetData;
            FileOpen (csv_name sp "edge_data_" ti);
            FileOpen (csv_name sp "agents_data_" ti)]) /\
    (forall t n, (Z.of_nat n mod UINT_MOD) mod K <> 0 ->
       iteration_events sp dt K nb t n = [CallCudaSimulate t nb]) /\
    F32.ltb (Nat.iter N (fun x => F32.add x dt) t0) tE = false /\
    (forall k, (k < N)%nat -> F32.ltb (Nat.iter k (fun x => F32.add x dt) t0) tE = true) /\
    (Z.of_nat N < UINT_MOD ->
     Z.of_nat (checkpoints (loop_events sp dt K nb t0 0 N)) = Z.of_nat N / K).
Proof.
  intros Hrun HK H1.
  destruct (simulateInGPU_returned _ _ _ _ _ _ Hrun)
    as (nb & K' & N & _ & HK' & Hlog & _ & Hend & Hbefore).
  assert (K' = K) as -> by congruence.
  assert (HKr : 1 <= K < UINT_MOD).
  { apply to_int_bounds in HK. unfold F32.INT_MAX, UINT_MOD in *. lia. }
  exists nb, N. cbv zeta. split; [done|]. split.
  { intros t n. rewrite <- (checkpoint_due_iff K n HKr). unfold iteration_events.
    rewrite elem_of_cons. split.
    - intros [?|Hin]; [done|]. destruct (checkpoint_due K n); [done|].
      by apply elem_of_nil in Hin.
    - intros ->. right. unfold checkpoint_events.
      destruct (F32.to_int _); apply list_elem_of_here. }
  split.
  { intros t n ti Hn Hti. apply (checkpoint_due_iff K n HKr) in Hn.
    unfold iteration_events, checkpoint_events. by rewrite Hn, Hti. }
  split.
  { intros t n Hn. unfold iteration_events.
    destruct (checkpoint_due K n) eqn:Hdue; [|done].
    by apply (checkpoint_due_iff K n HKr) in Hdue. }
  split; [done|]. split; [done|].
  intros HN. rewrite checkpoints_loop_events by (done || lia).
  change (Z.of_nat 0) with 0. rewrite Z.add_0_l, Zdiv_0_l. lia.
Qed.

(** C3, as amended.  Take a checkpoint interval of [K >= 1] steps, and let
    [N] be the number of times [deltaTime_] has to be added to the start
    time until the clock is no longer below the end time.  The run
    returns normally after [N] iterations (here: with fuel for them)
    provided the clock converts to [int] at every checkpoint and the
    device keeps handing back edge data that covers [mid2eid]; what the
    device has to keep is the invariant [Inv].  Its effects are: device
    init, then the [N] iterations, then device finish.  The [n]-th
    iteration retrieves the device data and opens the edge file and then
    the agent file exactly when the 32-bit step counter, [n mod 2^32], is
    a multiple of [K], and is a bare device step otherwise.  A run of
    [N < 2^32] steps therefore takes [N / K] checkpoints.  Every run that
    returns normally is of this form. *)
Theorem checkpoints_at_counter_multiples fuel t0 tE si s K :
  num_save_steps_of si (deltaTime_ s) = Some K ->
  1 <= K ->
  (forall nb N (Inv : device -> Prop),
     let sp := save_path_ s in
     let dt := deltaTime_ s in
     numBlocks_of (length (agents s)) = Some nb ->
     (forall k, (k < N)%nat ->
        F32.ltb (Nat.iter k (fun x => F32.add x dt) t0) tE = true) ->
     F32.ltb (Nat.iter N (fun x => F32.add x dt) t0) tE = false ->
     (N <= fuel)%nat ->
     (forall n, (1 <= n <= N)%nat -> checkpoint_due K n = true ->
        is_Some (F32.to_int (Nat.iter n (fun x => F32.add x dt) t0))) ->
     Inv (init_cuda (agents s) (edgesData (lanemap_ s)) (lanemap_array (lanemap_ s))
                    (intersections (lanemap_ s))) ->
     (forall t n m d b dev, Inv dev -> Inv (cuda_simulate t n m d b dev)) ->
     (forall dev, Inv dev ->
        Forall (fun me => is_Some (at_index (cuda_get_data dev).1.2 me.1))
               (mid2eid (lanemap_ s))) ->
     exists s',
       simulateInGPU fuel t0 tE si s = (Returned tt, s') /\
       log s' = log s ++ [CallInitCuda] ++ loop_events sp dt K nb t0 0 N
                  ++ [CallFinishCuda] /\
       (Z.of_nat N < UINT_MOD ->
        Z.of_nat (checkpoints (loop_events sp dt K nb t0 0 N)) = Z.of_nat N / K)) /\
  (forall s',
     simulateInGPU fuel t0 tE si s = (Returned tt, s') ->
    exists nb N,
      let sp := save_path_ s in
      let dt := deltaTime_ s in
      log s' = log s ++ [CallInitCuda] ++ loop_events sp dt K nb t0 0 N
                 ++ [CallFinishCuda] /\
      (forall t n, CallCudaGetData ∈ iteration_events sp dt K nb t n
                   <-> (Z.of_nat n mod UINT_MOD) mod K = 0) /\
      (forall t n ti,
         (Z.of_nat n mod UINT_MOD) mod K = 0 ->
         F32.to_int (F32.add t dt) = Some ti ->
         iteration_events sp dt K nb t n
           = [CallCudaSimulate t nb; CallCudaGetData;
              FileOpen (csv_name sp "edge_data_" ti);
              FileOpen (csv_name sp "agents_data_" ti)]) /\
      (forall t n, (Z.of_nat n mod UINT_MOD) mod K <> 0 ->
         iteration_events sp dt K nb t n = [CallCudaSimulate t nb]) /\
      F32.ltb (Nat.iter N (fun x => F32.add x dt) t0) tE = false /\
      (forall k, (k < N)%nat -> F32.ltb (Nat.iter k (fun x => F32.add x dt) t0) tE = true) /\
      (Z.of_nat N < UINT_MOD ->
       Z.of_nat (checkpoints (loop_events sp dt K nb t0 0 N)) = Z.of_nat N / K)).
Proof.
  intros HK H1. split.
  - intros nb N Inv sp dt Hnb Hbefore Hend Hfuel Hconv Hinit Hstep Hvalid.
    assert (HKr : 1 <= K < UINT_MOD).
    { pose proof (to_int_bounds _ _ HK). unfold F32.INT_MAX, UINT_MOD in *. lia. }
    assert (Hrun : exists s', simulateInGPU fuel t0 tE si s = (Returned tt, s')).
    { rewrite simulateInGPU_eq. cbv zeta. rewrite Hnb, HK. set (s1 := with_gpu _ _).
      unfold bind at 1.
      destruct (main_loop_returns K nb tE dt (mid2eid (lanemap_ s)) Inv HKr Hstep Hvalid
                  N fuel t0 0%nat s1 _ Hfuel eq_refl Hinit eq_refl eq_refl Hbefore Hend)
        as [s2 Hloop].
      { intros k Hk Hdue. apply Hconv; [lia|done]. }
      change (Z.of_nat 0 mod UINT_MOD) with 0 in Hloop. rewrite Hloop. by eexists. }
    destruct Hrun as [s' Hrun]. exists s'. split; [exact Hrun|].
    destruct (simulateInGPU_returned _ _ _ _ _ _ Hrun)
      as (nb' & K' & N' & Hnb' & HK' & Hlog & _ & Hend' & Hbefore').
    assert (nb' = nb) as -> by congruence.
    assert (K' = K) as -> by congruence.
    assert (N' = N) as -> by exact (clock_steps_unique _ _ _ _ _ Hbefore Hend Hbefore' Hend').
    split; [exact Hlog|].
    intros HN. rewrite checkpoints_loop_events by (done || lia).
    change (Z.of_nat 0) with 0. rewrite Z.add_0_l, Zdiv_0_l. lia.
  - intros s' Hrun. exact (returned_run_checkpoints fuel t0 tE si s s' K Hrun HK H1).
Qed.
End LoopProofs.

(** ** The line network: the collaborators keep their contracts *)

Lemma line_network_consistent : network_consistent Line.network.
Proof.
  intros u v eid. cbn. case_bool_decide as Huv; [|done].
  intros [= <-]. destruct Huv as [Hu ->].
  by rewrite bool_decide_eq_true_2.
Qed.

Lemma line_mapping_inverse : mapping_inverse Line.lanemap.
Proof.
  intros eid mid. cbn.
  destruct (decide (eid = 0)) as [->|H0]; [by intros [= <-]|].
  rewrite lookup_insert_ne by done.
  destruct (decide (eid = 1)) as [->|H1]; [by intros [= <-]|].
  rewrite lookup_insert_ne by done.
  destruct (decide (eid = 2)) as [->|H2]; [by intros [= <-]|].
  rewrite lookup_insert_ne by done.
  by rewrite lookup_empty.
Qed.

Lemma line_routed : route_finding_ Line.start = (Returned tt, Line.routed).
Proof. vm_compute. reflexivity. Qed.

Lemma line_routed_twice : route_finding_ Line.routed = (Returned tt, Line.routed_twice).
Proof. vm_compute. reflexivity. Qed.

(** The end-to-end scenario of the spec: the route of agent 0 is
    [10; 11; 12]. *)
Example line_route_buffer :
  route_entries <$> agents Line.routed = [[10; 11; 12]; []; []].
Proof. vm_compute. reflexivity. Qed.

(** ** The theorems at work on the line network *)

(** C1 on agent 0, whose path is [0; 1; 2; 3]. *)
Lemma route_round_trip_witness :
  exists a' mids,
    agents Line.routed !! 0%nat = Some a' /\
    route_entries a' = route_entries (Line.fresh 8 0 3) ++ mids /\
    route_size a' = (route_size (Line.fresh 8 0 3) + length mids)%nat /\
    vertex_pair_of_mid (network_ Line.start) (lanemap_ Line.start) <$> mids
      = Some <$> consecutive_pairs [0; 1; 2; 3].
Proof.
  apply (route_round_trip Line.start Line.routed 0 (Line.fresh 8 0 3) [0; 1; 2; 3]).
  - exact line_network_consistent.
  - exact line_mapping_inverse.
  - vm_compute. reflexivity.
  - reflexivity.
  - vm_compute. reflexivity.
  - discriminate.
Defined.

(** C8 on agent 2, for whom there is no path from 3 to 0. *)
Lemma no_route_warned_once_witness :
  exists a' tr,
    agents Line.routed !! 2%nat = Some a' /\ a' = Line.fresh 8 3 0 /\
    route_size a' = 0%nat /\
    log Line.routed = log Line.start ++ tr /\
    events_of 2 tr = [WarnNoRoute 2].
Proof.
  apply (no_route_warned_once Line.start Line.routed 2 (Line.fresh 8 3 0)).
  - vm_compute. reflexivity.
  - reflexivity.
  - reflexivity.
  - vm_compute. reflexivity.
Defined.

(** C9 on agent 1, who starts where it ends. *)
Lemma single_vertex_path_untouched_witness :
  exists a' tr,
    agents Line.routed !! 1%nat = Some a' /\ a' = Line.fresh 8 0 0 /\
    route_size a' = 0%nat /\
    log Line.routed = log Line.start ++ tr /\
    events_of 1 tr = [].
Proof.
  apply (single_vertex_path_untouched Line.start Line.routed 1 (Line.fresh 8 0 0) 0).
  - vm_compute. reflexivity.
  - reflexivity.
  - reflexivity.
  - vm_compute. reflexivity.
Defined.

(** C4 as stated fails: a second run leaves agent 0 with six entries in
    use, not three. *)
Lemma second_run_changes_route_buffers :
  route_finding_ Line.start = (Returned tt, Line.routed) /\
  route_finding_ Line.routed = (Returned tt, Line.routed_twice) /\
  route_entries <$> agents Line.routed = [[10; 11; 12]; []; []] /\
  route_entries <$> agents Line.routed_twice = [[10; 11; 12; 10; 11; 12]; []; []] /\
  route_size <$> agents Line.routed = [3; 0; 0]%nat /\
  route_size <$> agents Line.routed_twice = [6; 0; 0]%nat /\
  agents Line.routed_twice <> agents Line.routed.
Proof.
  do 6 (split; [vm_compute; reflexivity|]).
  intros Heq. apply (f_equal (fmap route_size)) in Heq. vm_compute in Heq. discriminate.
Defined.

(** C4 as amended, on agent 0. *)
Lemma second_run_appends_again_witness :
  exists a1 a2 mids,
    agents Line.routed !! 0%nat = Some a1 /\
    agents Line.routed_twice !! 0%nat = Some a2 /\
    length mids = (length [0; 1; 2; 3] - 1)%nat /\
    route_entries a1 = route_entries (Line.fresh 8 0 3) ++ mids /\
    route_entries a2 = route_entries a1 ++ mids /\
    route_size a1 = (route_size (Line.fresh 8 0 3) + length mids)%nat /\
    route_size a2 = (route_size a1 + length mids)%nat /\
    (a2 = a1 <-> mids = []).
Proof.
  apply (second_run_appends_again Line.start Line.routed Line.routed_twice 0
           (Line.fresh 8 0 3) [0; 1; 2; 3]).
  - vm_compute. reflexivity.
  - vm_compute. reflexivity.
  - reflexivity.
  - vm_compute. reflexivity.
Defined.

(** C2 as stated fails: with a buffer of capacity 2 and a path of three
    edges nothing is rejected; the third entry is stored at index 2, past
    the end of the buffer. *)
Lemma overlong_route_is_stored_past_capacity :
  agents Line.tight !! 0%nat = Some (Line.fresh 2 0 3) /\
  capacity (Line.fresh 2 0 3) = 2%nat /\
  node_sequence_of Line.tight !! 0%nat = Some [0; 1; 2; 3] /\
  (route_finding_ Line.tight).1 = Undefined StorePastCapacity /\
  RouteStore 0 2 12 ∈ log (route_finding_ Line.tight).2 /\
  ~ capacity_exceeded_is_rejected (route_finding_ Line.tight) 0 2.
Proof.
  do 4 (split; [vm_compute; reflexivity|]). split.
  - vm_compute. do 8 right. left.
  - intros [[e He] _]. vm_compute in He. discriminate.
Defined.

(** C2 as amended: on agent 0 of the line, whose buffer has room, and on
    the same agent with a buffer of two entries. *)
Lemma append_is_unchecked_witness :
  let steps := [(0, 1, 0, 10); (1, 2, 1, 11); (2, 3, 2, 12)] in
  let path := [0; 1; 2; 3] in
  (let a := Line.fresh 8 0 3 in
   exists s' a',
     assign_route 0 path Line.start = (Returned tt, s') /\
     agents s' !! 0%nat = Some a' /\
     route_entries a' = route_entries a ++ mids_of steps /\
     route_size a' = (route_size a + (length path - 1))%nat /\
     (route_size a' <= capacity a')%nat /\
     log s' = log Line.start ++ agent_events 0 a path steps /\
     (forall idx mid,
        RouteStore 0 idx mid ∈ agent_events 0 a path steps -> (idx < capacity a)%nat) /\
     (WarnLongRoute 0 (length path) ∈ agent_events 0 a path steps
        <-> (100 < length path)%nat)) /\
  (let a := Line.fresh 2 0 3 in
   let room := (capacity a - route_size a)%nat in
   exists s' a' mid,
     assign_route 0 path Line.tight = (Undefined StorePastCapacity, s') /\
     agents s' !! 0%nat = Some a' /\
     route_size a' = capacity a /\
     route_entries a' = route_entries a ++ take room (mids_of steps) /\
     mids_of steps !! room = Some mid /\
     log s' = log Line.tight ++ agent_events 0 a path (take (S room) steps) /\
     last (log s') = Some (RouteStore 0 (capacity a) mid) /\
     (WarnLongRoute 0 (length path) ∈ agent_events 0 a path (take (S room) steps)
        <-> (100 < length path)%nat)).
Proof.
  split.
  - apply (proj1 (append_is_unchecked Line.start 0 (Line.fresh 8 0 3) [0; 1; 2; 3]
                    [(0, 1, 0, 10); (1, 2, 1, 11); (2, 3, 2, 12)] eq_refl eq_refl)).
    vm_compute. lia.
  - apply (proj2 (append_is_unchecked Line.tight 0 (Line.fresh 2 0 3) [0; 1; 2; 3]
                    [(0, 1, 0, 10); (1, 2, 1, 11); (2, 3, 2, 12)] eq_refl eq_refl)).
    vm_compute. lia.
Defined.

(** C3 as stated fails when the duration is counted in seconds: a run
    from 0 to 0.75 s with a time step of 0.5 s and a save interval of 1 s
    takes two steps and one checkpoint (tagged 1 s), where
    [floor (0.75 / 1)] is 0. *)
Lemma checkpoint_count_is_not_duration_over_interval :
  let r := simulateInGPU 10 (F32.of_Z 0) Line.three_quarters 1 Line.start in
  r.1 = Returned tt /\
  num_save_steps_of 1 (deltaTime_ Line.start) = Some 2 /\
  log r.2 = [CallInitCuda;
             CallCudaSimulate (F32.of_Z 0) 1;
             CallCudaSimulate Line.half 1;
             CallCudaGetData;
             FileOpen "out/edge_data_1.csv"; FileOpen "out/agents_data_1.csv";
             CallFinishCuda] /\
  checkpoints (log r.2) = 1%nat /\
  duration_over_interval (F32.of_Z 0) Line.three_quarters 1 = Some 0 /\
  Some (Z.of_nat (checkpoints (log r.2)))
    <> duration_over_interval (F32.of_Z 0) Line.three_quarters 1.
Proof.
  cbv zeta. do 5 (split; [vm_compute; reflexivity|]).
  vm_compute. discriminate.
Defined.

(** C3 as amended, on a run from 0 to 3 s: it returns after six steps,
    with a checkpoint after every second one. *)
Lemma checkpoints_at_counter_multiples_witness :
  (exists s',
     simulateInGPU 10 (F32.of_Z 0) (F32.of_Z 3) 1 Line.start = (Returned tt, s') /\
     log s' = log Line.start ++ [CallInitCuda]
                ++ loop_events (save_path_ Line.start) (deltaTime_ Line.start) 2 1
                               (F32.of_Z 0) 0 6
                ++ [CallFinishCuda] /\
     (Z.of_nat 6 < UINT_MOD ->
      Z.of_nat (checkpoints (loop_events (save_path_ Line.start) (deltaTime_ Line.start) 2 1
                                         (F32.of_Z 0) 0 6)) = Z.of_nat 6 / 2)) /\
  (
    exists nb N,
      let sp := save_path_ Line.start in
      let dt := deltaTime_ Line.start in
      let t0 := F32.of_Z 0 in
      let tE := F32.of_Z 3 in
      log (simulateInGPU 10 t0 tE 1 Line.start).2
        = log Line.start ++ [CallInitCuda] ++ loop_events sp dt 2 nb t0 0 N
            ++ [CallFinishCuda] /\
      (forall t n, CallCudaGetData ∈ iteration_events sp dt 2 nb t n
                   <-> (Z.of_nat n mod UINT_MOD) mod 2 = 0) /\
      (forall t n ti,
         (Z.of_nat n mod UINT_MOD) mod 2 = 0 ->
         F32.to_int (F32.add t dt) = Some ti ->
         iteration_events sp dt 2 nb t n
           = [CallCudaSimulate t nb; CallCudaGetData;
              FileOpen (csv_name sp "edge_data_" ti);
              FileOpen (csv_name sp "agents_data_" ti)]) /\
      (forall t n, (Z.of_nat n mod UINT_MOD) mod 2 <> 0 ->
         iteration_events sp dt 2 nb t n = [CallCudaSimulate t nb]) /\
      F32.ltb (Nat.iter N (fun x => F32.add x dt) t0) tE = false /\
      (forall k, (k < N)%nat -> F32.ltb (Nat.iter k (fun x => F32.add x dt) t0) tE = true) /\
      (Z.of_nat N < UINT_MOD ->
       Z.of_nat (checkpoints (loop_events sp dt 2 nb t0 0 N)) = Z.of_nat N / 2)).
Proof.
  assert (HK : num_save_steps_of 1 (deltaTime_ Line.start) = Some 2)
    by (vm_compute; reflexivity).
  assert (H1 : 1 <= 2) by lia.
  split.
  - apply (proj1 (checkpoints_at_counter_multiples 10 (F32.of_Z 0) (F32.of_Z 3) 1
                    Line.start 2 HK H1)
             1 6%nat (fun d => d.1.2 = edgesData Line.lanemap)).
    + vm_compute. reflexivity.
    + intros k Hk. do 6 (destruct k as [|k]; [vm_compute; reflexivity|]). lia.
    + vm_compute. reflexivity.
    + lia.
    + intros n Hn _. destruct n as [|n]; [lia|].
      do 6 (destruct n as [|n]; [vm_compute; eauto|]). lia.
    + reflexivity.
    + intros t n m d b dev Hdev. exact Hdev.
    + intros dev Hdev. change (cuda_get_data dev) with dev. rewrite Hdev.
      repeat constructor; vm_compute; eauto.
  - apply (proj2 (checkpoints_at_counter_multiples 10 (F32.of_Z 0) (F32.of_Z 3) 1
                    Line.start 2 HK H1)
             (simulateInGPU 10 (F32.of_Z 0) (F32.of_Z 3) 1 Line.start).2).
    vm_compute. reflexivity.
Defined.

(** C7 as stated fails: with a save interval of 0 the device is
    initialised and stepped once before anything goes wrong, and a run
    that has nothing to step comes back normally. *)
Lemma zero_interval_reaches_the_device :
  let stepped := simulateInGPU 10 (F32.of_Z 0) (F32.of_Z 1) 0 Line.start in
  let idle := simulateInGPU 10 (F32.of_Z 1) (F32.of_Z 1) 0 Line.start in
  num_save_steps_of 0 (deltaTime_ Line.start) = Some 0 /\
  stepped.1 = Undefined ModuloByZero /\
  log stepped.2 = [CallInitCuda; CallCudaSimulate (F32.of_Z 0) 1] /\
  idle.1 = Returned tt /\
  log idle.2 = [CallInitCuda; CallFinishCuda] /\
  ~ fails_before_device_init stepped /\
  ~ fails_before_device_init idle.
Proof.
  cbv zeta. do 5 (split; [vm_compute; reflexivity|]). split.
  - intros [_ Hnot]. apply Hnot. vm_compute. left.
  - intros [Hfail _]. apply Hfail. vm_compute. reflexivity.
Defined.

(** C7 as amended, on a run with nothing to step. *)
Lemma zero_interval_not_rejected_witness :
  let r := simulateInGPU 10 (F32.of_Z 1) (F32.of_Z 1) 0 Line.start in
  (exists tr, log r.2 = log Line.start ++ CallInitCuda :: tr) /\
  (F32.ltb (F32.of_Z 1) (F32.of_Z 1) = false ->
   is_Some (numBlocks_of (length (agents Line.start))) ->
   r.1 = Returned tt /\ log r.2 = log Line.start ++ [CallInitCuda; CallFinishCuda]).
Proof.
  apply (zero_interval_not_rejected 10 (F32.of_Z 1) (F32.of_Z 1) 0 Line.start).
  vm_compute. reflexivity.
Defined.

(** C6 at work: a population that has not stepped yet.  The average
    speed written for each agent is [0 / 0], a NaN; it is neither finite
    nor the sentinel the edge file uses. *)
Theorem zero_steps_average_speed_is_nan :
  let r := save_agents 0 Line.start in
  r.1 = Returned tt /\
  num_steps <$> agents Line.start = [0; 0; 0] /\
  (exists rows,
     files r.2 !! "out/agents_data_0.csv" = Some (AgentCsv rows) /\
     ar_ave_speed <$> rows = [S754_nan; S754_nan; S754_nan]) /\
  S754_nan <> F32.minus_one.
Proof.
  cbv zeta. do 2 (split; [vm_compute; reflexivity|]). split.
  - eexists. split; vm_compute; reflexivity.
  - discriminate.
Qed.

(** C5 on the line network: three rows, the first with no downstream
    vehicle. *)
Lemma average_travel_time_field_witness :
  ((save_edges 1 Line.start).1 = Returned tt /\
   length (edge_rows (deltaTime_ Line.start)
             (edgesData (lanemap_ Line.start)) (mid2eid (lanemap_ Line.start)))
     = length (mid2eid (lanemap_ Line.start))) /\
  er_average_travel_time <$> edge_rows (deltaTime_ Line.start)
      (edgesData (lanemap_ Line.start)) (mid2eid (lanemap_ Line.start))
    = [F32.of_Z (-1); F32.of_Z 2; F32.of_Z 1].
Proof.
  split.
  - apply (proj1 average_travel_time_field Line.echo_device Line.writable Line.start 1).
    repeat constructor; vm_compute; eauto.
  - vm_compute. reflexivity.
Defined.

(** The quotient of C5 on 9 travel steps for 2 vehicles and a time step
    of half a second: 4 steps per vehicle, hence 2 s, with an integral
    accumulator; 4.5 steps per vehicle, hence 2.25 s, with a floating
    one. *)
Lemma average_travel_time_nine_for_two :
  ave_time Line.half nine_for_two = F32.of_Z 2 /\
  ave_time Line.half nine_for_two_float = F32.div (F32.of_Z 9) (F32.of_Z 4).
Proof. split; vm_compute; reflexivity. Qed.

(** * Further properties *)

(** ** Route assignment, whatever its outcome *)

Section RouteOutcomes.
Context {Acc : Type} `{!TravelSteps Acc} `{!Cuda Acc} `{!Accessibility}.
Implicit Types (s : TrafficSimulator Acc) (a : Agent) (path : list Z).

(** X6.  A path whose edges all resolve but do not fit: the iteration for
    that agent fills the buffer to its capacity with the first edges of
    the path and then performs the store that follows the last entry, at
    index [capacity], which is undefined; that store is the last effect
    logged. *)
Theorem overlong_route_fills_buffer_then_overflows s i a path steps :
  agents s !! i = Some a ->
  resolved_path (network_ s) (lanemap_ s) path = Some steps ->
  (route_size a <= capacity a)%nat ->
  (capacity a < route_size a + length steps)%nat ->
  exists s' a' mid,
    assign_route i path s = (Undefined StorePastCapacity, s') /\
    agents s' !! i = Some a' /\
    route_size a' = capacity a /\
    route_entries a' = route_entries a ++ take (capacity a - route_size a) (mids_of steps) /\
    mids_of steps !! (capacity a - route_size a)%nat = Some mid /\
    last (log s') = Some (RouteStore i (capacity a) mid).
Proof.
  intros Ha Hr Hle Hover.
  destruct (assign_route_overflows s i a path steps Ha Hr Hle Hover)
    as (s' & a' & mid & Hrun & Ha' & Hsize & Hent & Hmid & Hlast & _).
  by exists s', a', mid.
Qed.

(** X7.  A path whose first [p] edges resolve and fit and whose next
    edge has a graph edge id that [eid2mid] does not know: [eid2mid.at]
    raises [out_of_range] and the [p] entries appended before it stay in
    the buffer; the failed lookup is the last effect logged. *)
Theorem missing_merged_edge_leaves_partial_route s i a path p steps u v eid :
  agents s !! i = Some a ->
  resolved_path (network_ s) (lanemap_ s) (take (S p) path) = Some steps ->
  path !! p = Some u -> path !! S p = Some v ->
  edge_id (network_ s) u v = Some eid ->
  eid2mid (lanemap_ s) !! eid = None ->
  (route_size a + p <= capacity a)%nat ->
  exists s' a',
    assign_route i path s = (Threw out_of_range, s') /\
    agents s' !! i = Some a' /\
    length steps = p /\
    route_size a' = (route_size a + p)%nat /\
    route_entries a' = route_entries a ++ mids_of steps /\
    last (log s') = Some (CallEid2MidAt i eid).
Proof.
  intros Ha Hr Hu Hv Heid Hmid Hroom.
  assert (Hp : (S p < length path)%nat) by by eapply lookup_lt_Some.
  rewrite assign_route_walk, Ha. cbv zeta.
  rewrite bool_decide_eq_false_2 by lia.
  destruct (walk_prefix (network_ s) (lanemap_ s) i p path (route_size a)
              (capacity a - route_size a) steps) as [Hlen Hw]; [lia|done|lia|].
  rewrite Hw.
  assert (Hd : drop p path = u :: v :: drop (S (S p)) path).
  { rewrite (drop_S _ _ _ Hu). f_equal. by apply drop_S. }
  rewrite Hd, walk_cons, Heid, Hmid. cbn [fst snd].
  rewrite app_nil_r.
  destruct (route_entries_extend (mids_of steps) a) as (He & Hs & _).
  { unfold mids_of. rewrite length_fmap. lia. }
  eexists _, (extend_route (mids_of steps) a).
  split; [done|]. cbn [agents log with_log with_agents]. split.
  { apply list_lookup_insert_eq. by eapply lookup_lt_Some. }
  split; [done|]. split.
  { rewrite Hs. unfold mids_of. rewrite length_fmap. lia. }
  split; [done|].
  rewrite !app_assoc.
  change [CallEdgeId i u v; CallEid2MidAt i eid]
    with ([CallEdgeId i u v] ++ [CallEid2MidAt i eid]).
  rewrite !app_assoc. apply last_snoc.
Qed.

Lemma for_each_assign_route_returns paths :
  forall i0 s,
    (forall k path, paths !! k = Some path ->
       exists a steps,
         agents s !! (i0 + k)%nat = Some a /\
         resolved_path (network_ s) (lanemap_ s) path = Some steps /\
         (steps <> [] -> (route_size a + length steps <= capacity a)%nat)) ->
    exists s', for_each assign_route i0 paths s = (Returned tt, s').
Proof.
  induction paths as [|path paths IH]; intros i0 s Hall.
  - by eexists.
  - destruct (Hall 0%nat path eq_refl) as (a & steps & Ha & Hr & Hroom).
    rewrite Nat.add_0_r in Ha.
    cbn [for_each]. unfold bind.
    rewrite (proj2 (assign_route_returned i0 path s _)
               (ex_intro _ a (ex_intro _ steps (conj Ha (conj Hr (conj Hroom eq_refl)))))).
    apply IH. intros k path' Hk.
    destruct (Hall (S k) path' Hk) as (a' & steps' & Ha' & Hr' & Hroom').
    exists a', steps'. cbn [agents network_ lanemap_ with_log with_agents].
    split; [|done].
    rewrite list_lookup_insert_ne by lia.
    by replace (S i0 + k)%nat with (i0 + S k)%nat by lia.
Qed.

(** X1.  When every batch result is assignable (its agent exists, every
    pair of consecutive vertices has a graph edge id known to [eid2mid],
    and the edges fit into what is left of the agent's buffer), route
    assignment returns normally, and every agent with a batch result ends
    with the merged edge ids of its path appended to its buffer. *)
Theorem route_finding_returns_when_assignable s :
  (forall k path, node_sequence_of s !! k = Some path -> assignable s k path) ->
  exists s',
    route_finding_ s = (Returned tt, s') /\
    forall k path, node_sequence_of s !! k = Some path ->
      exists a steps,
        agents s !! k = Some a /\
        resolved_path (network_ s) (lanemap_ s) path = Some steps /\
        agents s' !! k = Some (extend_route (mids_of steps) a).
Proof.
  intros Hall.
  destruct (for_each_assign_route_returns (node_sequence_of s) 0%nat s Hall) as [s' Hrun].
  exists s'. split; [exact Hrun|]. intros k path Hk.
  destruct (route_finding_agent s s' k path Hrun Hk) as (a & steps & _ & ? & ? & _ & ? & _).
  by exists a, steps.
Qed.

Lemma extend_route_app m1 m2 a :
  extend_route (m1 ++ m2) a = extend_route m2 (extend_route m1 a).
Proof. revert a. induction m1 as [|m m1 IH]; intros a; [done|]. apply IH. Qed.

Lemma extend_route_keeps mids :
  forall a,
    init_intersection (extend_route mids a) = init_intersection a /\
    end_intersection (extend_route mids a) = end_intersection a /\
    agent_type (extend_route mids a) = agent_type a /\
    active (extend_route mids a) = active a /\
    cum_length (extend_route mids a) = cum_length a /\
    cum_v (extend_route mids a) = cum_v a /\
    num_steps (extend_route mids a) = num_steps a /\
    slow_down_steps (extend_route mids a) = slow_down_steps a /\
    num_lane_change (extend_route mids a) = num_lane_change a /\
    num_steps_in_queue (extend_route mids a) = num_steps_in_queue a /\
    capacity (extend_route mids a) = capacity a /\
    route_size (extend_route mids a) = (route_size a + length mids)%nat.
Proof.
  induction mids as [|m mids IH]; intros a.
  - cbn. rewrite Nat.add_0_r. done.
  - cbn [extend_route length].
    destruct (IH (push_route m a)) as (-> & -> & -> & -> & -> & -> & -> & -> & -> & -> & -> & ->).
    unfold capacity. cbn. rewrite length_insert.
    repeat split; lia.
Qed.

Lemma about_agents_events_of lo hi tr j :
  about_agents lo hi tr -> ~ (lo <= j < hi)%nat -> events_of j tr = [].
Proof.
  intros Hab Hj. unfold events_of.
  induction Hab as [|e tr (j' & He & Hj') _ IH]; [done|].
  rewrite filter_cons, decide_False; [done|]. rewrite He. intros [= ->]. lia.
Qed.

Lemma about_agents_weaken lo hi lo' hi' tr :
  about_agents lo hi tr -> (lo' <= lo)%nat -> (hi <= hi')%nat -> about_agents lo' hi' tr.
Proof.
  intros Hab ??. eapply Forall_impl; [exact Hab|].
  intros e (j & He & Hj). exists j. split; [done|lia].
Qed.

Lemma walk_about net (lm : Lanemap Acc) i path :
  forall k room, about_agents i (S i) (walk net lm i k room path).1.2.
Proof.
  assert (H1 : forall e, agent_of_event e = Some i ->
            exists j, agent_of_event e = Some j /\ (i <= j < S i)%nat).
  { intros e He. exists i. split; [done|lia]. }
  induction path as [|u [|v rest] IH]; intros k room; [constructor..|].
  rewrite walk_cons.
  destruct (edge_id net u v) as [eid|]; [|repeat constructor; by apply H1].
  destruct (eid2mid lm !! eid) as [mid|]; [|repeat constructor; by apply H1].
  destruct room as [|room']; [repeat constructor; by apply H1|].
  cbn [fst snd]. repeat (constructor; [by apply H1|]). apply IH.
Qed.

(** What one iteration of the outer loop can do, whatever its outcome. *)
Lemma assign_route_any i path s :
  let r := assign_route i path s in
  same_setting s r.2 /\
  (exists tr, log r.2 = log s ++ tr /\ about_agents i (S i) tr) /\
  (agents r.2 = agents s \/
   exists a mids, agents s !! i = Some a /\
     agents r.2 = <[i := extend_route mids a]> (agents s)).
Proof.
  cbv zeta. rewrite assign_route_walk.
  destruct (agents s !! i) as [a|] eqn:Ha.
  2:{ split; [by repeat split|]. split; [|by left].
      exists []. split; [by rewrite app_nil_r|constructor]. }
  cbv zeta.
  set (warn := if bool_decide (100 < length path)%nat
               then [WarnLongRoute i (length path)] else []).
  assert (Hwarn : about_agents i (S i) warn).
  { subst warn. case_bool_decide; repeat constructor. exists i. split; [done|lia]. }
  case_bool_decide.
  - split; [by repeat split|]. split; [|by left]. eexists; split; [done|].
    apply Forall_app. split; [done|]. repeat constructor. exists i. split; [done|lia].
  - split; [by repeat split|]. split; [|right; by eauto].
    eexists; split; [done|]. apply Forall_app. split; [done|]. apply walk_about.
Qed.

Lemma same_setting_trans s1 s2 s3 :
  same_setting s1 s2 -> same_setting s2 s3 -> same_setting s1 s3.
Proof. intros (?&?&?&?&?&?) (?&?&?&?&?&?). repeat split; congruence. Qed.

(** What the outer loop can do, whatever its outcome. *)
Lemma for_each_assign_route_any paths :
  forall i0 s,
    let r := for_each assign_route i0 paths s in
    same_setting s r.2 /\
    (forall j a, agents s !! j = Some a ->
       exists mids, agents r.2 !! j = Some (extend_route mids a)) /\
    length (agents r.2) = length (agents s) /\
    exists tr k,
      log r.2 = log s ++ tr /\
      (k <= length paths)%nat /\
      about_agents i0 (i0 + k) tr /\
      (forall j, (j < i0 \/ i0 + k <= j)%nat -> agents r.2 !! j = agents s !! j) /\
      (r.1 <> Returned tt -> (1 <= k)%nat /\ is_Some (paths !! (k - 1)%nat)).
Proof.
  induction paths as [|path paths IH]; intros i0 s; cbv zeta.
  - cbn. split; [done|]. split; [intros j a Hj; by exists []|]. split; [done|].
    exists [], 0%nat. rewrite app_nil_r. repeat split; try done. constructor.
  - cbn [for_each]. unfold bind.
    pose proof (assign_route_any i0 path s) as Hany. cbv zeta in Hany.
    destruct Hany as (Hset & (tr1 & Hlog1 & Hab1) & Hags).
    assert (Hags' : (forall j a, agents s !! j = Some a ->
               exists mids, agents (assign_route i0 path s).2 !! j
                            = Some (extend_route mids a)) /\
             length (agents (assign_route i0 path s).2) = length (agents s) /\
             (forall j, j <> i0 -> agents (assign_route i0 path s).2 !! j = agents s !! j)).
    { destruct Hags as [->|(a0 & mids & Ha0 & ->)].
      - split; [intros j a Hj; by exists []|]. done.
      - split; [|split; [apply length_insert|]].
        + intros j a Hj. destruct (decide (j = i0)) as [->|Hne].
          * exists mids. rewrite list_lookup_insert_eq by by eapply lookup_lt_Some.
            congruence.
          * exists []. by rewrite list_lookup_insert_ne.
        + intros j Hj. by apply list_lookup_insert_ne. }
    destruct Hags' as (Hgrow1 & Hlen1 & Hother1).
    destruct (assign_route i0 path s) as [[[]|e|u|] s1] eqn:Hstep; cbn [fst snd] in *.
    2-4: (split; [done|]; split; [done|]; split; [done|];
          exists tr1, 1%nat; split; [done|]; split; [simpl; lia|];
          split; [by replace (i0 + 1)%nat with (S i0) by lia|];
          split; [intros j Hj; apply Hother1; lia|];
          intros _; split; [lia|by eexists]).
    destruct (IH (S i0) s1) as (Hset2 & Hgrow2 & Hlen2 & tr2 & k & Hlog2 & Hk & Hab2 & Hout2 & Hfail2).
    split; [by eapply same_setting_trans|]. split.
    { intros j a Hj. destruct (Hgrow1 j a Hj) as [m1 H1].
      destruct (Hgrow2 j _ H1) as [m2 H2]. exists (m1 ++ m2).
      by rewrite extend_route_app. }
    split; [congruence|].
    exists (tr1 ++ tr2), (S k). split; [by rewrite Hlog2, Hlog1, app_assoc|].
    split; [simpl; lia|]. split.
    { apply Forall_app. split.
      - eapply about_agents_weaken; [exact Hab1|lia..].
      - eapply about_agents_weaken; [exact Hab2|lia..]. }
    split.
    { intros j Hj. rewrite Hout2 by lia. apply Hother1. lia. }
    intros Hfail. destruct (Hfail2 Hfail) as [Hk1 Hsome]. split; [lia|].
    replace (S k - 1)%nat with (S (k - 1)) by lia. exact Hsome.
Qed.

(** What route assignment leaves alone, as far as the layout of the
    state goes. *)
Lemma route_finding_keeps s :
  let s' := (route_finding_ s).2 in
  same_setting s s' /\
  length (agents s') = length (agents s) /\
  forall j a, agents s !! j = Some a ->
    exists a',
      agents s' !! j = Some a' /\
      init_intersection a' = init_intersection a /\
      end_intersection a' = end_intersection a /\
      agent_type a' = agent_type a /\
      active a' = active a /\
      cum_length a' = cum_length a /\
      cum_v a' = cum_v a /\
      num_steps a' = num_steps a /\
      slow_down_steps a' = slow_down_steps a /\
      num_lane_change a' = num_lane_change a /\
      num_steps_in_queue a' = num_steps_in_queue a /\
      capacity a' = capacity a /\
      (route_size a <= route_size a')%nat.
Proof.
  cbv zeta.
  pose proof (for_each_assign_route_any (node_sequence_of s) 0%nat s) as Hany.
  cbv zeta in Hany. destruct Hany as (Hset & Hgrow & Hlen & _).
  change (for_each assign_route 0%nat (node_sequence_of s) s) with (route_finding_ s) in *.
  split; [done|]. split; [done|].
  intros j a Hj. destruct (Hgrow j a Hj) as [mids Ha']. eexists. split; [exact Ha'|].
  destruct (extend_route_keeps mids a) as (-> & -> & -> & -> & -> & -> & -> & -> & -> & -> & -> & ->).
  repeat split; try done. lia.
Qed.

(** X3.  A run of route assignment that returns normally or ends with the
    [out_of_range] of [eid2mid.at] has changed nothing but the log and
    the routes: network, lanemap, save path, time step, device and files
    are as before, the population has the same size, and every agent
    keeps all its fields except [route] and [route_size]; the capacity of
    its buffer is unchanged and [route_size] has not decreased. *)
Theorem route_finding_frame s :
  (route_finding_ s).1 = Returned tt \/ (route_finding_ s).1 = Threw out_of_range ->
  let s' := (route_finding_ s).2 in
  same_setting s s' /\
  length (agents s') = length (agents s) /\
  forall j a, agents s !! j = Some a ->
    exists a',
      agents s' !! j = Some a' /\
      init_intersection a' = init_intersection a /\
      end_intersection a' = end_intersection a /\
      agent_type a' = agent_type a /\
      active a' = active a /\
      cum_length a' = cum_length a /\
      cum_v a' = cum_v a /\
      num_steps a' = num_steps a /\
      slow_down_steps a' = slow_down_steps a /\
      num_lane_change a' = num_lane_change a /\
      num_steps_in_queue a' = num_steps_in_queue a /\
      capacity a' = capacity a /\
      (route_size a <= route_size a')%nat.
Proof. intros _. apply route_finding_keeps. Qed.

Lemma assign_route_returns_iff i path s :
  (assign_route i path s).1 = Returned tt <-> assignable s i path.
Proof.
  split.
  - intros Hret. destruct (assign_route i path s) as [o s'] eqn:Hrun.
    cbn in Hret. subst o.
    apply assign_route_returned in Hrun as (a & steps & ? & ? & ? & _).
    by exists a, steps.
  - intros (a & steps & Ha & Hr & Hroom).
    by rewrite (proj2 (assign_route_returned i path s _)
                  (ex_intro _ a (ex_intro _ steps (conj Ha (conj Hr (conj Hroom eq_refl)))))).
Qed.

Lemma assignable_same s s' i path :
  network_ s' = network_ s -> lanemap_ s' = lanemap_ s ->
  agents s' !! i = agents s !! i ->
  assignable s' i path <-> assignable s i path.
Proof. intros Hn Hl Ha. unfold assignable. by rewrite Hn, Hl, Ha. Qed.

Lemma for_each_assign_route_fails paths :
  forall i0 s,
    let r := for_each assign_route i0 paths s in
    r.1 <> Returned tt ->
    exists k path tr,
      paths !! k = Some path /\
      (forall k' path', (k' < k)%nat -> paths !! k' = Some path' ->
         assignable s (i0 + k') path') /\
      ~ assignable s (i0 + k) path /\
      log r.2 = log s ++ tr /\
      forall j, (i0 + k < j)%nat ->
        agents r.2 !! j = agents s !! j /\ events_of j tr = [].
Proof.
  induction paths as [|path paths IH]; intros i0 s; cbv zeta; [done|].
  cbn [for_each]. unfold bind.
  pose proof (assign_route_any i0 path s) as Hany. cbv zeta in Hany.
  destruct Hany as ((Hnet & Hlm & _) & (tr1 & Hlog1 & Hab1) & Hags).
  assert (Hother1 : forall j, j <> i0 ->
            agents (assign_route i0 path s).2 !! j = agents s !! j).
  { destruct Hags as [->|(a0 & mids & Ha0 & ->)]; [done|].
    intros j Hj. by apply list_lookup_insert_ne. }
  pose proof (assign_route_returns_iff i0 path s) as Hiff.
  destruct (assign_route i0 path s) as [[[]|e|u|] s1] eqn:Hstep; cbn [fst snd] in *.
  2-4: (intros _; exists 0%nat, path, tr1; rewrite Nat.add_0_r;
        split; [done|]; split; [intros; lia|];
        split; [by rewrite <- Hiff|]; split; [done|];
        intros j Hj; split; [apply Hother1; lia|];
        eapply about_agents_events_of; [exact Hab1|lia]).
  intros Hfail.
  destruct (IH (S i0) s1 Hfail) as (k & path' & tr2 & Hk & Hbefore & Hnot & Hlog2 & Hafter).
  exists (S k), path', (tr1 ++ tr2).
  replace (i0 + S k)%nat with (S i0 + k)%nat by lia.
  split; [done|]. split.
  { intros [|k'] p' Hlt Hp'.
    - injection Hp' as <-. rewrite Nat.add_0_r. by apply Hiff.
    - replace (i0 + S k')%nat with (S i0 + k')%nat by lia.
      apply (assignable_same s s1); [done|done|apply Hother1; lia|].
      apply Hbefore; [lia|done]. }
  split.
  { intros Hass. apply Hnot.
    apply (assignable_same s s1); [done|done|apply Hother1; lia|done]. }
  split; [by rewrite Hlog2, Hlog1, app_assoc|].
  intros j Hj. destruct (Hafter j Hj) as [Hag Hev]. split.
  - rewrite Hag. apply Hother1. lia.
  - rewrite events_of_app, Hev, app_nil_r.
    eapply about_agents_events_of; [exact Hab1|lia].
Qed.

(** X2.  A run of route assignment that ends with the [out_of_range] of
    [eid2mid.at] stopped at the first agent [k] whose batch result is not
    assignable: all agents before it were assignable, and no agent after
    it has been touched or has any effect in the log. *)
Theorem route_finding_stops_at_first_failure s :
  (route_finding_ s).1 = Threw out_of_range ->
  exists k path tr,
    node_sequence_of s !! k = Some path /\
    (forall k' path', (k' < k)%nat -> node_sequence_of s !! k' = Some path' ->
       assignable s k' path') /\
    ~ assignable s k path /\
    log (route_finding_ s).2 = log s ++ tr /\
    forall j, (k < j)%nat ->
      agents (route_finding_ s).2 !! j = agents s !! j /\ events_of j tr = [].
Proof.
  intros Hthrew.
  apply (for_each_assign_route_fails (node_sequence_of s) 0%nat s).
  change (for_each assign_route 0%nat (node_sequence_of s) s) with (route_finding_ s).
  by rewrite Hthrew.
Qed.

Lemma resolved_path_mids net (lm : Lanemap Acc) path :
  forall steps,
    resolved_path net lm path = Some steps ->
    Forall (fun mid => exists eid, eid2mid lm !! eid = Some mid) (mids_of steps).
Proof.
  induction path as [|u [|v rest] IH]; intros steps Hr.
  - injection Hr as <-. constructor.
  - injection Hr as <-. constructor.
  - rewrite resolved_path_cons in Hr.
    destruct (edge_id net u v) as [eid|]; [|done].
    destruct (eid2mid lm !! eid) as [mid|] eqn:Hmid; [|done].
    destruct (resolved_path net lm (v :: rest)) as [steps'|]; [|done].
    injection Hr as <-. constructor; [by exists eid|by apply IH].
Qed.

(** X5.  After a returning run of route assignment on a population with
    empty buffers, every entry in use of every buffer is a merged edge id
    that [eid2mid] assigns to some graph edge. *)
Theorem route_entries_known_to_lanemap s s' :
  route_finding_ s = (Returned tt, s') ->
  Forall (fun a => route_size a = 0%nat) (agents s) ->
  Forall (fun a' =>
    Forall (fun mid => exists eid, eid2mid (lanemap_ s) !! eid = Some mid)
           (route_entries a')) (agents s').
Proof.
  intros Hrun Hfresh. rewrite Forall_lookup in Hfresh |- *. intros j a' Hj'.
  pose proof (route_finding_returned _ _ Hrun) as Hfe.
  apply for_each_assign_route in Hfe as (_ & _ & _ & _ & Hhigh & tr & _ & _ & Hpaths).
  destruct (node_sequence_of s !! j) as [path|] eqn:Hpath.
  - destruct (Hpaths j path Hpath) as (a & steps & Ha & Hr & Hroom & Ha' & _).
    cbn in Ha, Ha'. rewrite Hj' in Ha'. injection Ha' as Heq. subst a'.
    destruct (extend_route_fits a steps Hroom) as [-> _].
    apply Forall_app. split.
    + unfold route_entries. rewrite (Hfresh j a Ha). constructor.
    + by eapply resolved_path_mids.
  - apply lookup_ge_None in Hpath. rewrite Hhigh in Hj' by (cbn; lia).
    unfold route_entries. rewrite (Hfresh j a' Hj'). constructor.
Qed.

End RouteOutcomes.

(** ** Snapshot files *)

Section SnapshotFiles.
Context {Acc : Type} `{!TravelSteps Acc} `{!Cuda Acc} `{!Accessibility} {fs : FileSystem}.
Implicit Types (s : TrafficSimulator Acc) (a : Agent) (path : list Z).

Lemma touches_only_file_ret {A} name (x : A) : touches_only_file name (ret x).
Proof. by intros s name' _. Qed.

Lemma touches_only_file_gets {A} name (f : TrafficSimulator Acc -> A) :
  touches_only_file name (gets f).
Proof. by intros s name' _. Qed.

Lemma touches_only_file_checked {A} name e (o : option A) :
  touches_only_file name (checked e o).
Proof. intros s name' _. by destruct o. Qed.

Lemma touches_only_file_bind {A B} name (m : M Acc A) (k : A -> M Acc B) :
  touches_only_file name m -> (forall x, touches_only_file name (k x)) ->
  touches_only_file name (bind m k).
Proof.
  intros Hm Hk s name' Hne. unfold bind. specialize (Hm s name' Hne).
  destruct (m s) as [[x| | |] s1]; simpl in *; try done.
  by rewrite Hk.
Qed.

Lemma touches_only_file_write_row good name add :
  touches_only_file name (write_row good name add).
Proof. intros s name' Hne. destruct good; cbn; [by apply lookup_alter_ne|done]. Qed.

Lemma touches_only_file_open_file name empty : touches_only_file name (open_file name empty).
Proof.
  intros s name' Hne. rewrite open_file_eq. cbn [snd].
  destruct (openable name); cbn; [by apply lookup_insert_ne|done].
Qed.

Lemma touches_only_file_for_each {A} name (body : nat -> A -> M Acc unit) l :
  (forall i x, touches_only_file name (body i x)) ->
  forall i, touches_only_file name (for_each body i l).
Proof.
  intros Hbody. induction l as [|x l IH]; intros i.
  - apply touches_only_file_ret.
  - apply touches_only_file_bind; [apply Hbody | intros _; apply IH].
Qed.

Lemma touches_only_file_for_range name (body : nat -> M Acc unit) n :
  (forall i, touches_only_file name (body i)) ->
  forall j, touches_only_file name (for_range n j body).
Proof.
  intros Hbody. induction n as [|n IH]; intros j.
  - apply touches_only_file_ret.
  - apply touches_only_file_bind; [apply Hbody | intros _; apply IH].
Qed.

Lemma save_edges_other_files t s name' :
  name' <> csv_name (save_path_ s) "edge_data_" t ->
  files (save_edges t s).2 !! name' = files s !! name'.
Proof.
  intros Hne.
  set (name := csv_name (save_path_ s) "edge_data_" t) in *.
  assert (Hm : touches_only_file name
            (bind (open_file name (EdgeCsv []))
               (fun good => bind (gets lanemap_)
                  (fun lm => for_each (fun _ => save_edge good name) 0%nat (mid2eid lm))))).
  { apply touches_only_file_bind; [apply touches_only_file_open_file|]. intros good.
    apply touches_only_file_bind; [apply touches_only_file_gets|]. intros lm.
    apply touches_only_file_for_each. intros _ me. unfold save_edge.
    repeat (first [apply touches_only_file_gets | apply touches_only_file_checked
                  | apply touches_only_file_write_row
                  | apply touches_only_file_bind | intros ?]). }
  exact (Hm s name' Hne).
Qed.

Lemma save_agents_other_files t s name' :
  name' <> csv_name (save_path_ s) "agents_data_" t ->
  files (save_agents t s).2 !! name' = files s !! name'.
Proof.
  intros Hne.
  set (name := csv_name (save_path_ s) "agents_data_" t) in *.
  assert (Hm : touches_only_file name
            (bind (open_file name (AgentCsv []))
               (fun good => bind (gets agents)
                  (fun ags => for_range (length ags) 0%nat (save_agent good name))))).
  { apply touches_only_file_bind; [apply touches_only_file_open_file|]. intros good.
    apply touches_only_file_bind; [apply touches_only_file_gets|]. intros ags.
    apply touches_only_file_for_range. intros i. unfold save_agent.
    repeat (first [apply touches_only_file_gets | apply touches_only_file_checked
                  | apply touches_only_file_write_row
                  | apply touches_only_file_bind | intros ?]). }
  exact (Hm s name' Hne).
Qed.

(** X8.  [save_agents] always returns normally: [agents.at(i)] is always
    in range and the stream is never tested.  When its file can be opened,
    the file holds exactly one row per agent, in population order, row [i]
    carrying the index [i] and the fields of agent [i]; when it cannot, the
    file is left as it was.  No other file is touched. *)
Theorem save_agents_writes_every_agent s t :
  let r := save_agents t s in
  let name := csv_name (save_path_ s) "agents_data_" t in
  let rows := agent_rows (deltaTime_ s) 0 (agents s) in
  r.1 = Returned tt /\
  files r.2 !! name = (if openable name then Some (AgentCsv rows) else files s !! name) /\
  length rows = length (agents s) /\
  (forall i row, rows !! i = Some row ->
     ar_aid row = i /\
     exists agent, agents s !! i = Some agent /\ row = agent_row (deltaTime_ s) i agent) /\
  forall name', name' <> name -> files r.2 !! name' = files s !! name'.
Proof.
  cbv zeta.
  set (name := csv_name (save_path_ s) "agents_data_" t).
  split; [apply save_agents_returns|]. split.
  { rewrite save_agents_eq. cbv zeta. fold name. rewrite open_file_eq. cbn [snd].
    destruct (openable name).
    - set (s1 := with_files _ _).
      destruct (save_agent_loop name (length (agents s)) 0%nat s1 [] eq_refl
                  (lookup_insert_eq _ _ _)) as [_ Hrows].
      by rewrite Hrows, drop_0.
    - by rewrite save_agent_loop_failed. }
  assert (Hspec : forall ags j,
    length (agent_rows (deltaTime_ s) j ags) = length ags /\
    forall i row, agent_rows (deltaTime_ s) j ags !! i = Some row ->
      ar_aid row = (j + i)%nat /\
      exists agent, ags !! i = Some agent /\ row = agent_row (deltaTime_ s) (j + i) agent).
  { induction ags as [|agent ags IH]; intros j; [done|]. cbn [agent_rows length].
    destruct (IH (S j)) as [IHl IHr]. split; [by rewrite IHl|].
    intros [|i] row Hrow.
    - injection Hrow as <-. rewrite Nat.add_0_r. split; [done|]. by exists agent.
    - destruct (IHr i row Hrow) as (Haid & ag & Hag & ->).
      replace (j + S i)%nat with (S j + i)%nat by lia. split; [done|]. by exists ag. }
  destruct (Hspec (agents s) 0%nat) as [Hl Hr]. split; [done|]. split.
  - intros i row Hrow. exact (Hr i row Hrow).
  - intros name' Hne. by apply save_agents_other_files.
Qed.

(** X9.  [save_edges] returns normally when every [mid] of [mid2eid] is
    an index of [edgesData] and raises [out_of_range] otherwise; either
    way no file but its own edge file is touched. *)
Theorem save_edges_fails_on_unknown_mid s t :
  let r := save_edges t s in
  let valid me := is_Some (at_index (edgesData (lanemap_ s)) me.1) in
  (Forall valid (mid2eid (lanemap_ s)) -> r.1 = Returned tt) /\
  (~ Forall valid (mid2eid (lanemap_ s)) -> r.1 = Threw out_of_range) /\
  forall name', name' <> csv_name (save_path_ s) "edge_data_" t ->
    files r.2 !! name' = files s !! name'.
Proof.
  cbv zeta.
  pose proof (save_edges_outcome t s) as Hout.
  split; [|split].
  - intros Hall. by rewrite Hout, decide_True.
  - intros Hnot. by rewrite Hout, decide_False.
  - intros name' Hne. by apply (save_edges_other_files t s).
Qed.

Lemma string_length_append (s1 s2 : string) :
  String.length (s1 +:+ s2) = (String.length s1 + String.length s2)%nat.
Proof. induction s1 as [|c s1 IH]; simpl; [done|]. f_equal. exact IH. Qed.

Lemma append_inv_tail (s1 s2 x : string) : s1 +:+ x = s2 +:+ x -> s1 = s2.
Proof.
  revert s2. induction s1 as [|c s1 IH]; intros [|d s2] Heq.
  - done.
  - apply (f_equal String.length) in Heq.
    change (String.length x = S (String.length (s2 +:+ x))) in Heq.
    rewrite string_length_append in Heq. lia.
  - apply (f_equal String.length) in Heq.
    change (S (String.length (s1 +:+ x)) = String.length x) in Heq.
    rewrite string_length_append in Heq. lia.
  - injection Heq as -> Heq. f_equal. by apply IH.
Qed.

(** X10.  Two snapshots write to the same edge file (the same agent
    file) exactly when their integer time tags are equal, and an edge
    file never has the name of an agent file. *)
Theorem snapshot_file_names sp t1 t2 :
  (csv_name sp "edge_data_" t1 = csv_name sp "edge_data_" t2 <-> t1 = t2) /\
  (csv_name sp "agents_data_" t1 = csv_name sp "agents_data_" t2 <-> t1 = t2) /\
  csv_name sp "edge_data_" t1 <> csv_name sp "agents_data_" t2.
Proof.
  unfold csv_name. split; [|split].
  - split; [|by intros ->]. intros Heq.
    apply String.app_inj, String.app_inj, append_inv_tail in Heq.
    by apply (inj pretty).
  - split; [|by intros ->]. intros Heq.
    apply String.app_inj, String.app_inj, append_inv_tail in Heq.
    by apply (inj pretty).
  - intros Heq. apply String.app_inj in Heq. cbn in Heq. discriminate.
Qed.

(** X11.  For an agent that has not stepped ([num_steps = 0]) the average
    speed written by [save_agents] is never a finite number: a NaN when
    the speed sum is zero or a NaN, an infinity with the sign of the speed
    sum otherwise. *)
Theorem average_speed_without_steps dt i a :
  num_steps a = 0 ->
  ar_ave_speed (agent_row dt i a) =
    match cum_v a with
    | S754_zero _ | S754_nan => S754_nan
    | S754_infinity sg | S754_finite sg _ _ => S754_infinity sg
    end.
Proof.
  intros Hz. cbn. rewrite Hz, of_Z_zero. by destruct (cum_v a) as [[]|[]| |[]].
Qed.

End SnapshotFiles.

(** ** The stepping loop, whatever its outcome *)

Section LoopOutcomes.
Context {Acc : Type} `{!TravelSteps Acc} `{!Cuda Acc} `{!Accessibility} {fs : FileSystem}.
Implicit Types (s : TrafficSimulator Acc) (a : Agent) (path : list Z).

Lemma config_kept_refl s : config_kept s s.
Proof. by repeat split. Qed.

Lemma config_kept_trans s1 s2 s3 :
  config_kept s1 s2 -> config_kept s2 s3 -> config_kept s1 s3.
Proof. intros (?&?&?&?&?&?) (?&?&?&?&?&?). repeat split; congruence. Qed.

Lemma keeps_config_ret {A} (x : A) : keeps_config (ret x).
Proof. intros s. apply config_kept_refl. Qed.

Lemma keeps_config_gets {A} (f : TrafficSimulator Acc -> A) : keeps_config (gets f).
Proof. intros s. apply config_kept_refl. Qed.

Lemma keeps_config_unchecked {A} u (o : option A) : keeps_config (unchecked u o).
Proof. intros s. destruct o; apply config_kept_refl. Qed.

Lemma keeps_config_out_of_fuel {A} : keeps_config (@out_of_fuel Acc _ A).
Proof. intros s. apply config_kept_refl. Qed.

Lemma keeps_config_emit e : keeps_config (emit e).
Proof. intros s. by repeat split. Qed.

Lemma keeps_config_bind {A B} (m : M Acc A) (k : A -> M Acc B) :
  keeps_config m -> (forall x, keeps_config (k x)) -> keeps_config (bind m k).
Proof.
  intros Hm Hk s. unfold bind. specialize (Hm s).
  destruct (m s) as [[x| | |] s1]; simpl in *; try done.
  eapply config_kept_trans; [exact Hm | apply Hk].
Qed.

Lemma keeps_config_save_edges t : keeps_config (save_edges t).
Proof.
  intros s. destruct (save_edges_frame t s) as (Hn & _ & Hl & Hsp & Hdt & _).
  unfold config_kept. by rewrite Hn, Hl, Hsp, Hdt.
Qed.

Lemma keeps_config_save_agents t : keeps_config (save_agents t).
Proof.
  intros s. destruct (save_agents_frame t s) as (Hn & _ & Hl & Hsp & Hdt & _).
  unfold config_kept. by rewrite Hn, Hl, Hsp, Hdt.
Qed.

Lemma keeps_config_do_cuda_simulate t nb : keeps_config (do_cuda_simulate t nb).
Proof.
  unfold do_cuda_simulate.
  apply keeps_config_bind; [apply keeps_config_emit|]. intros _.
  apply keeps_config_bind; [apply keeps_config_gets|]. intros d.
  apply keeps_config_bind; [apply keeps_config_unchecked|]. intros dev.
  apply keeps_config_bind; [apply keeps_config_gets|]. intros ags.
  apply keeps_config_bind; [apply keeps_config_gets|]. intros lm.
  apply keeps_config_bind; [apply keeps_config_gets|]. intros dt.
  intros s. by repeat split.
Qed.

Lemma keeps_config_do_cuda_get_data : keeps_config do_cuda_get_data.
Proof.
  unfold do_cuda_get_data.
  apply keeps_config_bind; [apply keeps_config_emit|]. intros _.
  apply keeps_config_bind; [apply keeps_config_gets|]. intros d.
  apply keeps_config_bind; [apply keeps_config_unchecked|]. intros dev.
  intros s. by repeat split.
Qed.

Lemma keeps_config_checkpoint t : keeps_config (checkpoint t).
Proof.
  unfold checkpoint.
  apply keeps_config_bind; [apply keeps_config_do_cuda_get_data|]. intros _.
  apply keeps_config_bind; [apply keeps_config_unchecked|]. intros ti.
  apply keeps_config_bind; [apply keeps_config_save_edges|]. intros _.
  apply keeps_config_bind; [apply keeps_config_unchecked|]. intros ti'.
  apply keeps_config_save_agents.
Qed.

Lemma keeps_config_loop_body K nb t c : keeps_config (loop_body K nb t c).
Proof.
  unfold loop_body.
  apply keeps_config_bind; [apply keeps_config_do_cuda_simulate|]. intros _.
  apply keeps_config_bind; [apply keeps_config_gets|]. intros dt.
  apply keeps_config_bind; [apply keeps_config_unchecked|]. intros r.
  apply keeps_config_bind; [|intros _; apply keeps_config_ret].
  case_bool_decide; [apply keeps_config_checkpoint|apply keeps_config_ret].
Qed.

Lemma keeps_config_main_loop K nb tE fuel :
  forall t c, keeps_config (main_loop fuel K nb tE t c).
Proof.
  induction fuel as [|fuel IH]; intros t c; cbn [main_loop];
    destruct (F32.ltb t tE); try apply keeps_config_ret.
  - apply keeps_config_out_of_fuel.
  - apply keeps_config_bind; [apply keeps_config_loop_body|]. intros ts. apply IH.
Qed.

(** X12.  Whatever its outcome, [simulateInGPU] leaves the network, both
    id maps, the lane cells, the save path and the time step as they
    were. *)
Theorem simulateInGPU_keeps_configuration fuel t0 tE si s :
  let s' := (simulateInGPU fuel t0 tE si s).2 in
  network_ s' = network_ s /\
  eid2mid (lanemap_ s') = eid2mid (lanemap_ s) /\
  mid2eid (lanemap_ s') = mid2eid (lanemap_ s) /\
  lanemap_array (lanemap_ s') = lanemap_array (lanemap_ s) /\
  save_path_ s' = save_path_ s /\
  deltaTime_ s' = deltaTime_ s.
Proof.
  assert (Hk : keeps_config (simulateInGPU fuel t0 tE si)).
  { unfold simulateInGPU.
    apply keeps_config_bind.
    { unfold do_init_cuda. apply keeps_config_bind; [apply keeps_config_emit|].
      intros _ s0. by repeat split. }
    intros _. apply keeps_config_bind; [apply keeps_config_gets|]. intros ags.
    apply keeps_config_bind; [apply keeps_config_unchecked|]. intros nb.
    apply keeps_config_bind; [apply keeps_config_gets|]. intros dt.
    apply keeps_config_bind; [apply keeps_config_unchecked|]. intros K.
    apply keeps_config_bind; [apply keeps_config_main_loop|]. intros _.
    unfold do_finish_cuda. apply keeps_config_bind; [apply keeps_config_emit|].
    intros _ s0. by repeat split. }
  exact (Hk s).
Qed.

Lemma clock_stalled dt t N : F32.add t dt = t -> Nat.iter N (fun x => F32.add x dt) t = t.
Proof. intros Hst. induction N as [|N IH]; [done|]. by rewrite Nat.iter_succ, IH. Qed.

(** X15.  When adding [deltaTime_] to the start time gives the start time
    back (the float clock has stalled) and the start time is below the end
    time, the run does not return, however many iterations it is
    given. *)
Theorem stalled_clock_never_returns fuel t0 tE si s :
  F32.add t0 (deltaTime_ s) = t0 ->
  F32.ltb t0 tE = true ->
  (simulateInGPU fuel t0 tE si s).1 <> Returned tt.
Proof.
  intros Hst Hlt Hret.
  destruct (simulateInGPU fuel t0 tE si s) as [o s'] eqn:Hrun. cbn in Hret. subst o.
  apply simulateInGPU_returned in Hrun as (nb & K & N & _ & _ & _ & _ & Hend & _).
  rewrite clock_stalled in Hend by done. congruence.
Qed.

(** X13.  When the start time is not below the end time the run returns
    normally without a step or a checkpoint, whatever the save interval:
    its only effects are device init and device finish, and agents,
    lanemap and files are as before. *)
Theorem nothing_to_step_returns_untouched fuel t0 tE si s nb K :
  F32.ltb t0 tE = false ->
  numBlocks_of (length (agents s)) = Some nb ->
  num_save_steps_of si (deltaTime_ s) = Some K ->
  exists s',
    simulateInGPU fuel t0 tE si s = (Returned tt, s') /\
    log s' = log s ++ [CallInitCuda; CallFinishCuda] /\
    agents s' = agents s /\ lanemap_ s' = lanemap_ s /\ files s' = files s /\
    gpu s' = None.
Proof.
  intros Hlt Hnb HK. rewrite simulateInGPU_eq. cbv zeta. rewrite Hnb, HK.
  set (s1 := with_gpu _ _).
  assert (Hloop : main_loop fuel K nb tE t0 0 s1 = (Returned tt, s1)).
  { destruct fuel; cbn [main_loop]; by rewrite Hlt. }
  unfold bind. rewrite Hloop. eexists. split; [reflexivity|].
  cbn. by rewrite <- app_assoc.
Qed.

Lemma negative_interval_not_due K n :
  F32.INT_MIN <= K < 0 -> (1 <= n)%nat -> Z.of_nat n < 2 ^ 31 ->
  checkpoint_due K n = false.
Proof.
  intros HK Hn1 Hn. unfold checkpoint_due, umod, UINT_MOD, F32.INT_MIN in *.
  apply bool_decide_eq_false.
  assert (Hm : K mod 2 ^ 32 = K + 2 ^ 32).
  { symmetry. apply (Z.mod_unique K (2 ^ 32) (-1) (K + 2 ^ 32)); lia. }
  rewrite Hm. rewrite bool_decide_eq_false_2 by lia.
  rewrite (Z.mod_small (Z.of_nat n)) by lia.
  rewrite Z.mod_small by lia. intros [= Heq]. lia.
Qed.

Lemma loop_events_no_checkpoint sp dt K nb N :
  forall t n0,
    (forall n, (n0 < n <= n0 + N)%nat -> checkpoint_due K n = false) ->
    loop_events sp dt K nb t n0 N
      = (fun k => CallCudaSimulate (Nat.iter k (fun x => F32.add x dt) t) nb) <$> seq 0 N.
Proof.
  induction N as [|N IH]; intros t n0 Hdue; [done|].
  cbn [loop_events]. unfold iteration_events. rewrite Hdue by lia.
  rewrite IH by (intros n Hn; apply Hdue; lia).
  cbn [seq fmap list_fmap app]. f_equal.
  rewrite <- fmap_S_seq, <- list_fmap_compose. apply list_fmap_ext.
  intros i k _. unfold compose. cbv beta. by rewrite Nat.iter_succ_r.
Qed.

(** X14.  With a negative checkpoint interval (the interval is converted
    to unsigned before the modulus is taken) a returning run of fewer than
    [2^31] steps takes no checkpoint: between device init and device
    finish its effects are the device steps alone. *)
Theorem negative_interval_never_checkpoints fuel t0 tE si s s' K :
  simulateInGPU fuel t0 tE si s = (Returned tt, s') ->
  num_save_steps_of si (deltaTime_ s) = Some K ->
  K < 0 ->
  Z.of_nat fuel < 2 ^ 31 ->
  exists nb N,
    log s' = log s ++ [CallInitCuda]
      ++ ((fun k => CallCudaSimulate
                      (Nat.iter k (fun x => F32.add x (deltaTime_ s)) t0) nb) <$> seq 0 N)
      ++ [CallFinishCuda].
Proof.
  intros Hrun HK Hneg Hfuel.
  destruct (simulateInGPU_returned _ _ _ _ _ _ Hrun)
    as (nb & K' & N & _ & HK' & Hlog & HN & _ & _).
  assert (K' = K) as -> by congruence.
  exists nb, N. rewrite Hlog. do 2 f_equal.
  rewrite (loop_events_no_checkpoint _ _ _ _ _ _ 0%nat); [done|].
  intros n Hn. apply negative_interval_not_due; [|lia|lia].
  apply to_int_bounds in HK. lia.
Qed.

End LoopOutcomes.

(** ** The further properties at work on the line network *)

(** X1 on the line: all three batch results are assignable. *)
Lemma route_finding_returns_when_assignable_witness :
  exists s',
    route_finding_ Line.start = (Returned tt, s') /\
    forall k path, node_sequence_of Line.start !! k = Some path ->
      exists a steps,
        agents Line.start !! k = Some a /\
        resolved_path (network_ Line.start) (lanemap_ Line.start) path = Some steps /\
        agents s' !! k = Some (extend_route (mids_of steps) a).
Proof.
  apply (route_finding_returns_when_assignable Line.start).
  intros [|[|[|k]]] path Hk; vm_compute in Hk; [..|discriminate];
    injection Hk as <-; eexists _, _;
    (split; [reflexivity|]); (split; [vm_compute; reflexivity|]);
    intros _; vm_compute; lia.
Defined.

(** X2 on the lanemap with the gap: agent 0 meets the gap, agent 1 behind
    it is never reached. *)
Lemma route_finding_stops_at_first_failure_witness :
  exists k path tr,
    node_sequence_of gapped_pair !! k = Some path /\
    (forall k' path', (k' < k)%nat -> node_sequence_of gapped_pair !! k' = Some path' ->
       assignable gapped_pair k' path') /\
    ~ assignable gapped_pair k path /\
    log (route_finding_ gapped_pair).2 = log gapped_pair ++ tr /\
    forall j, (k < j)%nat ->
      agents (route_finding_ gapped_pair).2 !! j = agents gapped_pair !! j
      /\ events_of j tr = [].
Proof.
  apply (route_finding_stops_at_first_failure gapped_pair).
  vm_compute. reflexivity.
Defined.

(** X3 on the line, where the run returns. *)
Lemma route_finding_frame_witness :
  let s' := (route_finding_ Line.start).2 in
  same_setting Line.start s' /\
  length (agents s') = length (agents Line.start) /\
  forall j a, agents Line.start !! j = Some a ->
    exists a',
      agents s' !! j = Some a' /\
      init_intersection a' = init_intersection a /\
      end_intersection a' = end_intersection a /\
      agent_type a' = agent_type a /\
      active a' = active a /\
      cum_length a' = cum_length a /\
      cum_v a' = cum_v a /\
      num_steps a' = num_steps a /\
      slow_down_steps a' = slow_down_steps a /\
      num_lane_change a' = num_lane_change a /\
      num_steps_in_queue a' = num_steps_in_queue a /\
      capacity a' = capacity a /\
      (route_size a <= route_size a')%nat.
Proof.
  apply (route_finding_frame Line.start). left. vm_compute. reflexivity.
Defined.

(** X5 on the line. *)
Lemma route_entries_known_to_lanemap_witness :
  Forall (fun a' =>
    Forall (fun mid => exists eid, eid2mid (lanemap_ Line.start) !! eid = Some mid)
           (route_entries a')) (agents Line.routed).
Proof.
  apply (route_entries_known_to_lanemap Line.start Line.routed).
  - vm_compute. reflexivity.
  - repeat constructor.
Defined.

(** X6 on a buffer of two entries and a path of three edges. *)
Lemma overlong_route_fills_buffer_then_overflows_witness :
  let a := Line.fresh 2 0 3 in
  let steps := [(0, 1, 0, 10); (1, 2, 1, 11); (2, 3, 2, 12)] in
  exists s' a' mid,
    assign_route 0 [0; 1; 2; 3] Line.tight = (Undefined StorePastCapacity, s') /\
    agents s' !! 0%nat = Some a' /\
    route_size a' = capacity a /\
    route_entries a' = route_entries a ++ take (capacity a - route_size a) (mids_of steps) /\
    mids_of steps !! (capacity a - route_size a)%nat = Some mid /\
    last (log s') = Some (RouteStore 0 (capacity a) mid).
Proof.
  apply (overlong_route_fills_buffer_then_overflows Line.tight 0 (Line.fresh 2 0 3)
           [0; 1; 2; 3] [(0, 1, 0, 10); (1, 2, 1, 11); (2, 3, 2, 12)]).
  - reflexivity.
  - vm_compute. reflexivity.
  - vm_compute. lia.
  - vm_compute. lia.
Defined.

(** X7 on the lanemap without a merged edge for graph edge 2: the first
    two entries stay in the buffer. *)
Lemma missing_merged_edge_leaves_partial_route_witness :
  let a := Line.fresh 8 0 3 in
  let steps := [(0, 1, 0, 10); (1, 2, 1, 11)] in
  exists s' a',
    assign_route 0 [0; 1; 2; 3] gapped = (Threw out_of_range, s') /\
    agents s' !! 0%nat = Some a' /\
    length steps = 2%nat /\
    route_size a' = (route_size a + 2)%nat /\
    route_entries a' = route_entries a ++ mids_of steps /\
    last (log s') = Some (CallEid2MidAt 0 2).
Proof.
  apply (missing_merged_edge_leaves_partial_route gapped 0 (Line.fresh 8 0 3)
           [0; 1; 2; 3] 2 [(0, 1, 0, 10); (1, 2, 1, 11)] 2 3 2).
  - reflexivity.
  - vm_compute. reflexivity.
  - reflexivity.
  - reflexivity.
  - vm_compute. reflexivity.
  - vm_compute. reflexivity.
  - vm_compute. lia.
Defined.

(** X8 where the agent file cannot be opened: the call returns and no
    file appears. *)
Lemma save_agents_in_read_only_directory :
  save_agents (fs := read_only) 0 Line.start
    = (Returned tt, with_log [FileOpen "out/agents_data_0.csv"] Line.start) /\
  files (save_agents (fs := read_only) 0 Line.start).2 = ∅.
Proof. split; vm_compute; reflexivity. Qed.

(** X11 on a fresh agent. *)
Lemma average_speed_without_steps_witness :
  ar_ave_speed (agent_row Line.half 0 (Line.fresh 8 0 3)) = S754_nan.
Proof.
  apply (average_speed_without_steps Line.half 0 (Line.fresh 8 0 3)).
  reflexivity.
Defined.

(** X13 on a run from 1 s to 1 s with a save interval of 5 s. *)
Lemma nothing_to_step_returns_untouched_witness :
  exists s',
    simulateInGPU 10 (F32.of_Z 1) (F32.of_Z 1) 5 Line.start = (Returned tt, s') /\
    log s' = log Line.start ++ [CallInitCuda; CallFinishCuda] /\
    agents s' = agents Line.start /\ lanemap_ s' = lanemap_ Line.start /\
    files s' = files Line.start /\ gpu s' = None.
Proof.
  apply (nothing_to_step_returns_untouched 10 (F32.of_Z 1) (F32.of_Z 1) 5 Line.start 1 10).
  - vm_compute. reflexivity.
  - vm_compute. reflexivity.
  - vm_compute. reflexivity.
Defined.

(** X14 on a save interval of -1 s: two steps, no checkpoint. *)
Lemma negative_interval_never_checkpoints_witness :
  exists nb N,
    log (simulateInGPU 10 (F32.of_Z 0) (F32.of_Z 1) (-1) Line.start).2
      = log Line.start ++ [CallInitCuda]
        ++ ((fun k => CallCudaSimulate
                        (Nat.iter k (fun x => F32.add x (deltaTime_ Line.start)) (F32.of_Z 0))
                        nb) <$> seq 0 N)
        ++ [CallFinishCuda].
Proof.
  apply (negative_interval_never_checkpoints 10 (F32.of_Z 0) (F32.of_Z 1) (-1) Line.start
           (simulateInGPU 10 (F32.of_Z 0) (F32.of_Z 1) (-1) Line.start).2 (-2)).
  - vm_compute. reflexivity.
  - vm_compute. reflexivity.
  - lia.
  - vm_compute. reflexivity.
Defined.

(** X15 at [2^24] s, where half a second is below the spacing of the
    floats. *)
Lemma stalled_clock_never_returns_witness :
  (simulateInGPU 50 two_pow_24 (F32.of_Z (2 ^ 25)) 1 Line.start).1 <> Returned tt.
Proof.
  apply (stalled_clock_never_returns 50 two_pow_24 (F32.of_Z (2 ^ 25)) 1 Line.start).
  - vm_compute. reflexivity.
  - vm_compute. reflexivity.
Defined.
